(** * Batch image editor: the text-replacement workflow

    A shallow embedding of [src/services/geminiService.ts] (the adapters
    in front of the remote service), of [src/components/ImageEditor.tsx]
    (the session state, its handlers and the batch run), of the form of
    [src/components/ImageGenerator.tsx] and of the handlers of the upload
    component, with the properties the specification states about them
    and further properties read off the code.

    Conventions.
    - JavaScript strings are [string]s holding the UTF-8 bytes of the text.
    - JavaScript numbers are exact rationals ([Q]); the rounding of IEEE
      doubles is not part of the model.
    - A thrown value is a [JsThrown]; a computation that may throw returns
      [JsThrown + A].
    - A [Set<number>] is the list of its members in insertion order, with
      no member twice.
    - [Record<number, BatchProgress>] is a [gmap nat BatchProgress].
    - An [async] handler is run from start to end, without any other
      handler taking a turn while it awaits; what it does is kept as the
      list of its effects, in program order.
    - The component is embedded at its TypeScript types: what it awaits
      from the extraction adapter is a [TextWithBoundingBox[]].  The
      adapter itself is embedded on the values [JSON.parse] produces. *)

From Stdlib Require Import Ascii String QArith.
From stdpp Require Import gmap strings list pretty.

Local Open Scope string_scope.
Local Open Scope list_scope.

(** ** JavaScript values shared by both source files *)

(** What a [catch (err)] clause receives: an [Error] object with its
    [message], or any other thrown value. *)
Inductive JsThrown :=
  | ThrownError (message : string)
  | ThrownOther.

(** [err instanceof Error ? err.message : fallback] *)
Definition messageOr (fallback : string) (err : JsThrown) : string :=
  match err with
  | ThrownError m => m
  | ThrownOther => fallback
  end.

(** The browser [File] handed over by the upload component; [fileBase64]
    is the payload of the data URL a [FileReader] makes of it. *)
Record File := { fileName : string; fileType : string; fileBase64 : string }.

(** ** [String.prototype.trim]

  ECMAScript strips WhiteSpace and LineTerminator code points from both
  ends: U+0009..U+000D, U+0020, U+00A0, U+1680, U+2000..U+200A, U+2028,
  U+2029, U+202F, U+205F, U+3000 and U+FEFF.  On UTF-8 bytes these are the
  one-, two- and three-byte sequences recognised below. *)
Module JsString.

Definition byte (a : ascii) : N := N_of_ascii a.

Definition ws1 (a : ascii) : bool :=
  ((9 <=? byte a) && (byte a <=? 13) || (byte a =? 32))%N.

Definition ws2 (a b : ascii) : bool :=
  ((byte a =? 194) && (byte b =? 160))%N.

Definition ws3 (a b c : ascii) : bool :=
  ((byte a =? 225) && (byte b =? 154) && (byte c =? 128)
   || (byte a =? 226) && (byte b =? 128)
      && ((128 <=? byte c) && (byte c <=? 138)
          || (byte c =? 168) || (byte c =? 169) || (byte c =? 175))
   || (byte a =? 226) && (byte b =? 129) && (byte c =? 159)
   || (byte a =? 227) && (byte b =? 128) && (byte c =? 128)
   || (byte a =? 239) && (byte b =? 187) && (byte c =? 191))%N.

(** One white-space character removed from the front, if there is one. *)
Definition dropWsFront (l : list ascii) : option (list ascii) :=
  match l with
  | a :: r1 =>
      if ws1 a then Some r1 else
      match r1 with
      | b :: r2 =>
          if ws2 a b then Some r2 else
          match r2 with
          | c :: r3 => if ws3 a b c then Some r3 else None
          | [] => None
          end
      | [] => None
      end
  | [] => None
  end.

(** One white-space character removed from the back of a list that is
    held reversed (last byte first). *)
Definition dropWsBack (l : list ascii) : option (list ascii) :=
  match l with
  | c :: r1 =>
      if ws1 c then Some r1 else
      match r1 with
      | b :: r2 =>
          if ws2 b c then Some r2 else
          match r2 with
          | a :: r3 => if ws3 a b c then Some r3 else None
          | [] => None
          end
      | [] => None
      end
  | [] => None
  end.

Fixpoint strip (drop : list ascii → option (list ascii))
    (fuel : nat) (l : list ascii) : list ascii :=
  match fuel with
  | O => l
  | S fuel' =>
      match drop l with
      | Some l' => strip drop fuel' l'
      | None => l
      end
  end.

Definition trimStartBytes (l : list ascii) : list ascii :=
  strip dropWsFront (length l) l.

Definition trimEndBytes (l : list ascii) : list ascii :=
  reverse (strip dropWsBack (length l) (reverse l)).

Definition trim (s : string) : string :=
  string_of_list_ascii
    (trimEndBytes (trimStartBytes (list_ascii_of_string s))).

(** A text that holds double quotes, written with a backquote in the
    place of each. *)
Definition dq (s : string) : string :=
  string_of_list_ascii
    (map (λ a, if (byte a =? 96)%N then ascii_of_nat 34 else a)
         (list_ascii_of_string s)).

End JsString.

(** ** JSON values and [JSON.parse]

  [JSON.parse] is a built-in of the language, not code of the repository:
  the adapter below takes it as a parameter.  [Json.parse] is a reference
  implementation of the ECMA-404 grammar, used to run the adapter on
  concrete response texts.  Numbers are kept as the exact value of their
  decimal literal; an object keeps its members in source order and a
  later duplicate key wins on lookup, as it does in JavaScript. *)
Module Json.

#[warnings="-register-all"]
Inductive JSON :=
  | JNull
  | JBool (b : bool)
  | JNum (q : Q)
  | JStr (s : string)
  | JArr (items : list JSON)
  | JObj (members : list (string * JSON)).

(** Property read [o[k]] on a parsed object. *)
Fixpoint get (k : string) (members : list (string * JSON)) : option JSON :=
  match members with
  | [] => None
  | (k', v) :: rest =>
      match get k rest with
      | Some later => Some later
      | None => if String.eqb k k' then Some v else None
      end
  end.

Definition bytes : string → list ascii := list_ascii_of_string.

Definition isJsonWs (a : ascii) : bool :=
  let n := N_of_ascii a in ((n =? 32) || (n =? 9) || (n =? 10) || (n =? 13))%N.

Fixpoint skipWs (l : list ascii) : list ascii :=
  match l with
  | a :: r => if isJsonWs a then skipWs r else l
  | [] => []
  end.

Fixpoint expect (lit l : list ascii) : option (list ascii) :=
  match lit, l with
  | [], _ => Some l
  | c :: lit', a :: r => if Ascii.eqb c a then expect lit' r else None
  | _ :: _, [] => None
  end.

Definition digitVal (a : ascii) : option N :=
  let n := N_of_ascii a in
  if ((48 <=? n) && (n <=? 57))%N then Some (n - 48)%N else None.

Definition hexVal (a : ascii) : option N :=
  let n := N_of_ascii a in
  if ((48 <=? n) && (n <=? 57))%N then Some (n - 48)%N
  else if ((65 <=? n) && (n <=? 70))%N then Some (n - 55)%N
  else if ((97 <=? n) && (n <=? 102))%N then Some (n - 87)%N
  else None.

(** The longest run of decimal digits at the front: its value, its
    length, and what follows. *)
Fixpoint takeDigits (acc : N) (count : nat) (l : list ascii)
    : N * nat * list ascii :=
  match l with
  | a :: r =>
      match digitVal a with
      | Some d => takeDigits (10 * acc + d)%N (S count) r
      | None => (acc, count, l)
      end
  | [] => (acc, count, [])
  end.

(** [mant * 10 ^ exp10] as a rational. *)
Definition scale10 (mant : Z) (exp10 : Z) : Q :=
  if (0 <=? exp10)%Z then inject_Z (mant * 10 ^ exp10)
  else Qmake mant (Z.to_pos (10 ^ (- exp10))).

Definition parseExponent (l : list ascii) : option (Z * list ascii) :=
  match l with
  | a :: r =>
      if (Ascii.eqb a "e" || Ascii.eqb a "E")%bool then
        let '(neg, r1) :=
          match r with
          | s :: r' =>
              if Ascii.eqb s "-" then (true, r')
              else if Ascii.eqb s "+" then (false, r')
              else (false, r)
          | [] => (false, r)
          end in
        match takeDigits 0 0 r1 with
        | (_, O, _) => None
        | (e, S _, rest) =>
            Some (if (neg : bool) then (- Z.of_N e)%Z else Z.of_N e, rest)
        end
      else Some (0%Z, l)
  | [] => Some (0%Z, [])
  end.

Definition parseFraction (l : list ascii) : option (N * nat * list ascii) :=
  match l with
  | a :: r =>
      if Ascii.eqb a "." then
        match takeDigits 0 0 r with
        | (_, O, _) => None
        | (f, S n, rest) => Some (f, S n, rest)
        end
      else Some (0%N, O, l)
  | [] => Some (0%N, O, [])
  end.

(** An optional minus sign, an integer part without a leading zero
    (unless it is the single digit 0), an optional fraction and an
    optional exponent. *)
Definition parseNumber (l : list ascii) : option (Q * list ascii) :=
  let '(neg, l1) :=
    match l with
    | a :: r => if Ascii.eqb a "-" then (true, r) else (false, l)
    | [] => (false, l)
    end in
  match l1 with
  | [] => None
  | d0 :: _ =>
      match takeDigits 0 0 l1 with
      | (_, O, _) => None
      | (i, S n, l2) =>
          if (Ascii.eqb d0 "0" && negb (Nat.eqb n 0))%bool then None else
          match parseFraction l2 with
          | None => None
          | Some (f, fl, l3) =>
              match parseExponent l3 with
              | None => None
              | Some (e, l4) =>
                  let mant := Z.of_N (i * 10 ^ N.of_nat fl + f) in
                  let q := scale10 mant (e - Z.of_nat fl) in
                  Some (if (neg : bool) then Qopp q else q, l4)
              end
          end
      end
  end.

(** String contents before decoding: a raw byte of the text, or the
    UTF-16 code unit of a [\uXXXX] escape. *)
Inductive Piece :=
  | Raw (a : ascii)
  | Unit16 (u : N).

Definition simpleEscape (a : ascii) : option ascii :=
  let n := N_of_ascii a in
  if (n =? 34)%N then Some a                      (* quote *)
  else if (n =? 92)%N then Some a                 (* backslash *)
  else if (n =? 47)%N then Some a                 (* slash *)
  else if (n =? 98)%N then Some "008"%char        (* escape b *)
  else if (n =? 102)%N then Some "012"%char       (* escape f *)
  else if (n =? 110)%N then Some "010"%char       (* escape n *)
  else if (n =? 114)%N then Some "013"%char       (* escape r *)
  else if (n =? 116)%N then Some "009"%char       (* escape t *)
  else None.

(** Reads up to the closing quote; the opening quote is already gone. *)
Fixpoint parsePieces (l : list ascii) (acc : list Piece)
    : option (list Piece * list ascii) :=
  match l with
  | [] => None
  | a :: r =>
      let n := N_of_ascii a in
      if (n =? 34)%N then Some (reverse acc, r)
      else if (n <? 32)%N then None
      else if (n =? 92)%N then
        match r with
        | e :: r1 =>
            if Ascii.eqb e "u" then
              match r1 with
              | h1 :: h2 :: h3 :: h4 :: r2 =>
                  match hexVal h1, hexVal h2, hexVal h3, hexVal h4 with
                  | Some a1, Some a2, Some a3, Some a4 =>
                      parsePieces r2
                        (Unit16 (((a1 * 16 + a2) * 16 + a3) * 16 + a4)%N :: acc)
                  | _, _, _, _ => None
                  end
              | _ => None
              end
            else
              match simpleEscape e with
              | Some c => parsePieces r1 (Raw c :: acc)
              | None => None
              end
        | [] => None
        end
      else parsePieces r (Raw a :: acc)
  end.

Definition b (n : N) : ascii := ascii_of_N n.

(** UTF-8 of one code point (a lone surrogate is written the same way). *)
Definition utf8 (cp : N) : list ascii :=
  if (cp <? 128)%N then [b cp]
  else if (cp <? 2048)%N then [b (192 + cp / 64); b (128 + cp mod 64)]
  else if (cp <? 65536)%N then
    [b (224 + cp / 4096); b (128 + (cp / 64) mod 64); b (128 + cp mod 64)]
  else
    [b (240 + cp / 262144); b (128 + (cp / 4096) mod 64);
     b (128 + (cp / 64) mod 64); b (128 + cp mod 64)].

Definition isHigh (u : N) : bool := ((55296 <=? u) && (u <=? 56319))%N.
Definition isLow (u : N) : bool := ((56320 <=? u) && (u <=? 57343))%N.

Fixpoint decodePieces (ps : list Piece) : list ascii :=
  match ps with
  | [] => []
  | Raw a :: rest => a :: decodePieces rest
  | Unit16 hi :: rest =>
      match rest with
      | Unit16 lo :: rest' =>
          if (isHigh hi && isLow lo)%bool
          then utf8 (65536 + (hi - 55296) * 1024 + (lo - 56320))%N
                 ++ decodePieces rest'
          else utf8 hi ++ decodePieces rest
      | _ => utf8 hi ++ decodePieces rest
      end
  end.

Definition parseString (l : list ascii) : option (string * list ascii) :=
  match parsePieces l [] with
  | Some (ps, r) => Some (string_of_list_ascii (decodePieces ps), r)
  | None => None
  end.

(** One layer of the grammar of values, with the parsers of what an array
    and an object hold passed in. *)
Definition valueStep
    (elements : list ascii → list JSON → option (JSON * list ascii))
    (members : list ascii → list (string * JSON) → option (JSON * list ascii))
    (l : list ascii) : option (JSON * list ascii) :=
  match skipWs l with
  | [] => None
  | a :: r =>
      let n := N_of_ascii a in
      if (n =? 110)%N then                               (* n *)
        option_map (pair JNull) (expect (bytes "null") (a :: r))
      else if (n =? 116)%N then                          (* t *)
        option_map (pair (JBool true)) (expect (bytes "true") (a :: r))
      else if (n =? 102)%N then                          (* f *)
        option_map (pair (JBool false)) (expect (bytes "false") (a :: r))
      else if (n =? 34)%N then                           (* quote *)
        match parseString r with
        | Some (s, r') => Some (JStr s, r')
        | None => None
        end
      else if (n =? 91)%N then                           (* [ *)
        match skipWs r with
        | c :: r' =>
            if Ascii.eqb c "]" then Some (JArr [], r')
            else elements r []
        | [] => None
        end
      else if (n =? 123)%N then                          (* { *)
        match skipWs r with
        | c :: r' =>
            if Ascii.eqb c "}" then Some (JObj [], r')
            else members r []
        | [] => None
        end
      else
        match parseNumber (a :: r) with
        | Some (q, r') => Some (JNum q, r')
        | None => None
        end
  end.

(** An element, then a comma and more elements, or the closing bracket. *)
Definition elementsStep
    (value : list ascii → option (JSON * list ascii))
    (elements : list ascii → list JSON → option (JSON * list ascii))
    (l : list ascii) (acc : list JSON) : option (JSON * list ascii) :=
  match value l with
  | Some (v, r) =>
      match skipWs r with
      | c :: r' =>
          if Ascii.eqb c "," then elements r' (v :: acc)
          else if Ascii.eqb c "]" then Some (JArr (reverse (v :: acc)), r')
          else None
      | [] => None
      end
  | None => None
  end.

(** A key, a colon and a value, then a comma and more members, or the
    closing brace. *)
Definition membersStep
    (value : list ascii → option (JSON * list ascii))
    (members : list ascii → list (string * JSON) → option (JSON * list ascii))
    (l : list ascii) (acc : list (string * JSON)) : option (JSON * list ascii) :=
  match skipWs l with
  | q :: r0 =>
      if (N_of_ascii q =? 34)%N then
        match parseString r0 with
        | Some (k, r1) =>
            match skipWs r1 with
            | c :: r2 =>
                if Ascii.eqb c ":" then
                  match value r2 with
                  | Some (v, r3) =>
                      match skipWs r3 with
                      | d :: r4 =>
                          if Ascii.eqb d "," then members r4 ((k, v) :: acc)
                          else if Ascii.eqb d "}" then
                            Some (JObj (reverse ((k, v) :: acc)), r4)
                          else None
                      | [] => None
                      end
                  | None => None
                  end
                else None
            | [] => None
            end
        | None => None
        end
      else None
  | [] => None
  end.

Fixpoint parseValue (fuel : nat) (l : list ascii) : option (JSON * list ascii) :=
  match fuel with
  | O => None
  | S fuel' => valueStep (parseElements fuel') (parseMembers fuel') l
  end
with parseElements (fuel : nat) (l : list ascii) (acc : list JSON)
    : option (JSON * list ascii) :=
  match fuel with
  | O => None
  | S fuel' => elementsStep (parseValue fuel') (parseElements fuel') l acc
  end
with parseMembers (fuel : nat) (l : list ascii) (acc : list (string * JSON))
    : option (JSON * list ascii) :=
  match fuel with
  | O => None
  | S fuel' => membersStep (parseValue fuel') (parseMembers fuel') l acc
  end.

(** [None] stands for the [SyntaxError] that [JSON.parse] throws.  One
    unit of fuel per byte is enough ([JsonFacts.parse_fuel_enough]). *)
Definition parse (s : string) : option JSON :=
  let l := bytes s in
  match parseValue (length l) l with
  | Some (v, rest) =>
      match skipWs rest with
      | [] => Some v
      | _ :: _ => None
      end
  | None => None
  end.

End Json.

(** ** [src/services/geminiService.ts] *)
Module Service.
Import Json.

(** [getAI]: throws when [process.env.API_KEY] is falsy. *)
Definition apiKeyMessage : string := "API_KEY is not available.".

(** *** Requests *)

Record Blob := { data : option string; mimeType : option string }.

Inductive RequestPart :=
  | InlinePart (inlineData : Blob)
  | TextPart (text : string).

(** The [config] of a request: the JSON response schema of the OCR call
    (an array of objects with required [text] and [boundingBox], the box
    with required numbers [x1], [y1], [x2], [y2]), or image output only. *)
Inductive RequestConfig :=
  | JsonArrayOfTextAndBox
  | ImageModalityOnly.

Record Request := {
  model : string;
  parts : list RequestPart;
  config : RequestConfig;
}.

(** [fileToGenerativePart] *)
Definition fileToGenerativePart (file : File) : RequestPart :=
  InlinePart {| data := Some (fileBase64 file); mimeType := Some (fileType file) |}.

(** What came of running an adapter: the requests it sent to the remote
    service, in order, the raw texts it wrote to the console, and the
    value its promise settled with. *)
Record Ran (A : Type) := {
  sent : list Request;
  logged : list (option string);
  settled : JsThrown + A;
}.
Arguments sent {A} _.
Arguments logged {A} _.
Arguments settled {A} _.

(** *** Text extraction *)

Definition ocrPrompt : string :=
  JsString.dq "Perform detailed OCR on this image. For each distinct line or block of text, provide its content and its bounding box coordinates. The coordinates should be percentages of the image's total width and height, with the origin (0,0) at the top-left corner. Return the result as a valid JSON array of objects, where each object has a `text` key and a `boundingBox` key. The boundingBox object should have `x1`, `y1`, `x2`, `y2` keys. Example: [{`text`: `Hello World`, `boundingBox`: {`x1`: 0.1, `y1`: 0.15, `x2`: 0.4, `y2`: 0.2}}]".

Definition malformedResponseMessage : string :=
  "The AI could not extract text and location data in the expected format. Please try another image.".

Definition ocrRequest (imageFile : File) : Request :=
  {| model := "gemini-2.5-flash";
     parts := [TextPart ocrPrompt; fileToGenerativePart imageFile];
     config := JsonArrayOfTextAndBox |}.

Section ExtractText.
(** [JSON.parse]; [None] is its [SyntaxError]. *)
Variable JSON_parse : string → option JSON.

(** The [try]/[catch] around the parse.  [response.text] is [None] when
    the response carries no text, in which case [.trim()] throws inside
    the [try].  Every exception ends in the same [Error]; the raw text
    goes to the console only. *)
Definition parseOcrText (responseText : option string)
    : list (option string) * (JsThrown + JSON) :=
  match responseText with
  | Some t =>
      match JSON_parse (JsString.trim t) with
      | Some result => ([], inr result)
      | None => ([responseText], inl (ThrownError malformedResponseMessage))
      end
  | None => ([responseText], inl (ThrownError malformedResponseMessage))
  end.

Definition extractTextWithBoundingBoxes
    (API_KEY : bool) (remote : Request → JsThrown + option string)
    (imageFile : File) : Ran JSON :=
  if API_KEY then
    match remote (ocrRequest imageFile) with
    | inl err =>
        {| sent := [ocrRequest imageFile]; logged := []; settled := inl err |}
    | inr responseText =>
        let '(log, result) := parseOcrText responseText in
        {| sent := [ocrRequest imageFile]; logged := log; settled := result |}
    end
  else {| sent := []; logged := []; settled := inl (ThrownError apiKeyMessage) |}.
End ExtractText.

(** What the declared result type [TextWithBoundingBox[]] and the data
    model ask of a parsed value. *)
Definition inUnit (q : Q) : bool := Qle_bool 0 q && Qle_bool q 1.

Definition isCoordinate (v : option JSON) : bool :=
  match v with
  | Some (JNum q) => inUnit q
  | _ => false
  end.

Definition isBoundingBox (v : option JSON) : bool :=
  match v with
  | Some (JObj box) =>
      isCoordinate (get "x1" box) && isCoordinate (get "y1" box)
      && isCoordinate (get "x2" box) && isCoordinate (get "y2" box)
  | _ => false
  end.

Definition isTextRegion (v : JSON) : bool :=
  match v with
  | JObj item =>
      match get "text" item with
      | Some (JStr _) => isBoundingBox (get "boundingBox" item)
      | _ => false
      end
  | _ => false
  end.

Definition isTextRegionList (v : JSON) : bool :=
  match v with
  | JArr items => forallb isTextRegion items
  | _ => false
  end.

(** The declared result type of the adapter. *)
Record BoundingBox := { x1 : Q; y1 : Q; x2 : Q; y2 : Q }.
Record TextWithBoundingBox := { text : string; boundingBox : BoundingBox }.

(** A parsed value read at the declared type, when it has that shape. *)
Definition asNumber (v : option JSON) : option Q :=
  match v with
  | Some (JNum q) => Some q
  | _ => None
  end.

Definition asBoundingBox (v : option JSON) : option BoundingBox :=
  match v with
  | Some (JObj box) =>
      a ← asNumber (get "x1" box); b ← asNumber (get "y1" box);
      c ← asNumber (get "x2" box); d ← asNumber (get "y2" box);
      Some {| x1 := a; y1 := b; x2 := c; y2 := d |}
  | _ => None
  end.

Definition asTextWithBoundingBox (v : JSON) : option TextWithBoundingBox :=
  match v with
  | JObj item =>
      match get "text" item with
      | Some (JStr t) =>
          box ← asBoundingBox (get "boundingBox" item);
          Some {| text := t; boundingBox := box |}
      | _ => None
      end
  | _ => None
  end.

Definition asTextWithBoundingBoxes (v : JSON) : option (list TextWithBoundingBox) :=
  match v with
  | JArr items => mapM asTextWithBoundingBox items
  | _ => None
  end.

Definition boxInUnit (box : BoundingBox) : Prop :=
  inUnit (x1 box) = true ∧ inUnit (y1 box) = true
  ∧ inUnit (x2 box) = true ∧ inUnit (y2 box) = true.

(** *** Image editing *)

Record ResponsePart := { inlineData : option Blob; partText : option string }.
Record Content := { contentParts : option (list ResponsePart) }.
Record Candidate := { content : option Content; finishReason : option string }.
Record GenerateContentResponse := { candidates : option (list Candidate) }.

(** [response.candidates?.[0]] *)
Definition firstCandidate (response : GenerateContentResponse) : option Candidate :=
  match candidates response with
  | Some (c :: _) => Some c
  | _ => None
  end.

(** [response.candidates?.[0]?.content?.parts ?? []] *)
Definition responseParts (response : GenerateContentResponse) : list ResponsePart :=
  match firstCandidate response with
  | Some c =>
      match content c with
      | Some ct => default [] (contentParts ct)
      | None => []
      end
  | None => []
  end.

(** A value inside a template literal: [undefined] prints as its name. *)
Definition interpolate (v : option string) : string := default "undefined" v.

Definition dataUrl (blob : Blob) : string :=
  "data:" +:+ interpolate (mimeType blob) +:+ ";base64," +:+ interpolate (data blob).

(** The [for] loop over the parts: the first part whose [inlineData] is
    set ends the function. *)
Fixpoint firstInlineData (ps : list ResponsePart) : option Blob :=
  match ps with
  | [] => None
  | part :: rest =>
      match inlineData part with
      | Some blob => Some blob
      | None => firstInlineData rest
      end
  end.

Definition blockedMessage (reason : string) : string :=
  "Image generation was blocked. Reason: " +:+ reason +:+ ". Please try a different prompt.".

Definition noImageMessage : string :=
  "No edited image found in the response. The model may not have been able to fulfill the request.".

(** JavaScript truthiness of a possibly missing string. *)
Definition truthy (v : option string) : bool :=
  match v with
  | Some s => negb (String.eqb s "")
  | None => false
  end.

(** Everything after the call to [generateContent]. *)
Definition readEditResponse (response : GenerateContentResponse) : JsThrown + string :=
  match firstInlineData (responseParts response) with
  | Some blob => inr (dataUrl blob)
  | None =>
      let blockReason := firstCandidate response ≫= finishReason in
      if truthy blockReason && negb (String.eqb (interpolate blockReason) "STOP")
      then inl (ThrownError (blockedMessage (interpolate blockReason)))
      else inl (ThrownError noImageMessage)
  end.

(** [s.split(',')[1]] *)
Fixpoint upToComma (l : list ascii) : list ascii * option (list ascii) :=
  match l with
  | [] => ([], None)
  | a :: r =>
      if Ascii.eqb a "," then ([], Some r)
      else let '(seg, rest) := upToComma r in (a :: seg, rest)
  end.

Definition secondSegment (s : string) : option string :=
  match upToComma (list_ascii_of_string s) with
  | (_, Some rest) => Some (string_of_list_ascii (fst (upToComma rest)))
  | (_, None) => None
  end.

Definition editRequest (prompt : string) (originalImageFile : File)
    (maskedImageBase64 : option string) : Request :=
  let originalImagePart := fileToGenerativePart originalImageFile in
  let maskedImagePart :=
    match maskedImageBase64 with
    | Some mask =>
        if truthy maskedImageBase64 then
          [InlinePart {| data := secondSegment mask;
                         mimeType := Some (fileType originalImageFile) |}]
        else []
    | None => []
    end in
  {| model := "gemini-2.5-flash-image";
     parts := [originalImagePart] ++ maskedImagePart ++ [TextPart prompt];
     config := ImageModalityOnly |}.

Definition editImage
    (API_KEY : bool) (remote : Request → JsThrown + GenerateContentResponse)
    (prompt : string) (originalImageFile : File)
    (maskedImageBase64 : option string) : Ran string :=
  if API_KEY then
    let request := editRequest prompt originalImageFile maskedImageBase64 in
    match remote request with
    | inl err => {| sent := [request]; logged := []; settled := inl err |}
    | inr response =>
        {| sent := [request]; logged := []; settled := readEditResponse response |}
    end
  else {| sent := []; logged := []; settled := inl (ThrownError apiKeyMessage) |}.

(** *** Image generation *)

(** The response of [ai.models.generateImages], each field of which may be
    missing. *)
Record Image := { imageBytes : option string }.
Record GeneratedImage := { image : option Image }.
Record GenerateImagesResponse := { generatedImages : option (list GeneratedImage) }.

Record ImagesRequest := {
  imagesModel : string;
  imagesPrompt : string;
  numberOfImages : nat;
  outputMimeType : string;
  requestedAspectRatio : string;
}.

Definition imagesRequest (prompt aspectRatio : string) : ImagesRequest :=
  {| imagesModel := "imagen-4.0-generate-001"; imagesPrompt := prompt;
     numberOfImages := 2; outputMimeType := "image/jpeg";
     requestedAspectRatio := aspectRatio |}.

(** The callback of [response.generatedImages.map]; reading [imageBytes]
    of a missing [image] throws. *)
Definition jpegUrl (undefinedRead : string → string) (img : GeneratedImage)
    : JsThrown + string :=
  match image img with
  | Some im => inr ("data:image/jpeg;base64," +:+ interpolate (imageBytes im))
  | None => inl (ThrownError (undefinedRead "imageBytes"))
  end.

(** [array.map(f)] where [f] may throw: the first exception ends it. *)
Fixpoint mapThrowing {A B} (f : A → JsThrown + B) (l : list A) : JsThrown + list B :=
  match l with
  | [] => inr []
  | x :: rest =>
      match f x with
      | inl err => inl err
      | inr y =>
          match mapThrowing f rest with
          | inl err => inl err
          | inr ys => inr (y :: ys)
          end
      end
  end.

(** [undefinedRead p] is the wording the engine gives the [TypeError]
    raised by reading property [p] of [undefined].  The result pairs the
    requests sent with what the promise settles with. *)
Definition generateImage
    (API_KEY : bool) (remote : ImagesRequest → JsThrown + GenerateImagesResponse)
    (undefinedRead : string → string) (prompt aspectRatio : string)
    : list ImagesRequest * (JsThrown + list string) :=
  if API_KEY then
    let request := imagesRequest prompt aspectRatio in
    match remote request with
    | inl err => ([request], inl err)
    | inr response =>
        match generatedImages response with
        | Some images => ([request], mapThrowing (jpegUrl undefinedRead) images)
        | None => ([request], inl (ThrownError (undefinedRead "map")))
        end
    end
  else ([], inl (ThrownError apiKeyMessage)).

(** A generated image that carries its bytes. *)
Definition jpegOf (payload : string) : GeneratedImage :=
  {| image := Some {| imageBytes := Some payload |} |}.

End Service.

(** ** [src/components/ImageEditor.tsx] *)
Module Editor.
Export Service.

(** The double-quote character and the line feed, for the texts that hold
    them. *)
Definition quote : string := String (ascii_of_nat 34) "".
Definition newline : string := String (ascii_of_nat 10) "".

(** *** Session state *)

Record UploadedImage := { file : File; base64 : string }.

(** [itemBox] is the [boundingBox] field of the item. *)
Record TextItem := {
  id : nat;
  original : string;
  modified : string;
  itemBox : BoundingBox;
}.

Module BatchStatus.
Inductive t := pending | loading | success | error.
End BatchStatus.

Record BatchProgress := {
  status : BatchStatus.t;
  result : option string;
  error : option string;
}.

Record State := {
  uploadedImages : list UploadedImage;
  masterIndex : option nat;
  batchSelection : list nat;
  textItems : list TextItem;
  isAnalyzing : bool;
  analysisError : option string;
  batchProgress : gmap nat BatchProgress;
  isBatchProcessing : bool;
}.

(** The [useState] initial values. *)
Definition initialState : State :=
  {| uploadedImages := []; masterIndex := None; batchSelection := [];
     textItems := []; isAnalyzing := false; analysisError := None;
     batchProgress := ∅; isBatchProcessing := false |}.

(** *** [Set<number>] in insertion order *)

(** [s.has(index)], [s.add(index)] and [s.delete(index)]. *)
Definition has (index : nat) (s : list nat) : bool := bool_decide (index ∈ s).

Definition add (index : nat) (s : list nat) : list nat :=
  if has index s then s else s ++ [index].

Definition delete (index : nat) (s : list nat) : list nat :=
  filter (λ j, j ≠ index) s.

(** *** The canvas a mask is drawn on *)

(** A canvas keeps its size, the current [fillStyle] of its 2d context and
    what has been drawn on it, in order; a fill records the style it was
    made with. *)
Record Rect := { rectX : Q; rectY : Q; rectW : Q; rectH : Q }.

Inductive DrawOp :=
  | DrawImage (imageIndex : nat) (dx dy : Q)
  | FillRect (style : string) (r : Rect).

Record Canvas := {
  width : Z;
  height : Z;
  fillStyle : string;
  drawn : list DrawOp;
}.

Record HTMLImageElement := { naturalWidth : Z; naturalHeight : Z }.

Definition createCanvas (w h : Z) : Canvas :=
  {| width := w; height := h; fillStyle := "#000000"; drawn := [] |}.

Definition drawImage (imageIndex : nat) (dx dy : Q) (c : Canvas) : Canvas :=
  {| width := width c; height := height c; fillStyle := fillStyle c;
     drawn := drawn c ++ [DrawImage imageIndex dx dy] |}.

Definition setFillStyle (style : string) (c : Canvas) : Canvas :=
  {| width := width c; height := height c; fillStyle := style;
     drawn := drawn c |}.

Definition fillRect (r : Rect) (c : Canvas) : Canvas :=
  {| width := width c; height := height c; fillStyle := fillStyle c;
     drawn := drawn c ++ [FillRect (fillStyle c) r] |}.

(** *** Effects of the asynchronous handlers

    An [async] handler is run to completion and yields, in program order,
    the state setters it called, the alerts it raised and the adapter
    calls it awaited. *)
Inductive Effect :=
  | Alert (message : string)
  | SetIsAnalyzing (b : bool)
  | SetTextItems (items : list TextItem)
  | SetAnalysisError (e : option string)
  | SetBatchProgress (progress : gmap nat BatchProgress)
  | UpdateBatchProgress (imageIndex : nat) (entry : BatchProgress)
  | SetIsBatchProcessing (b : bool)
  | AwaitExtract (imageFile : File)
  | AwaitEdit (prompt : string) (imageFile : File) (mask : Canvas).

Definition apply (st : State) (e : Effect) : State :=
  match e with
  | SetIsAnalyzing b =>
      {| uploadedImages := uploadedImages st; masterIndex := masterIndex st;
         batchSelection := batchSelection st; textItems := textItems st;
         isAnalyzing := b; analysisError := analysisError st;
         batchProgress := batchProgress st;
         isBatchProcessing := isBatchProcessing st |}
  | SetTextItems items =>
      {| uploadedImages := uploadedImages st; masterIndex := masterIndex st;
         batchSelection := batchSelection st; textItems := items;
         isAnalyzing := isAnalyzing st; analysisError := analysisError st;
         batchProgress := batchProgress st;
         isBatchProcessing := isBatchProcessing st |}
  | SetAnalysisError e =>
      {| uploadedImages := uploadedImages st; masterIndex := masterIndex st;
         batchSelection := batchSelection st; textItems := textItems st;
         isAnalyzing := isAnalyzing st; analysisError := e;
         batchProgress := batchProgress st;
         isBatchProcessing := isBatchProcessing st |}
  | SetBatchProgress progress =>
      {| uploadedImages := uploadedImages st; masterIndex := masterIndex st;
         batchSelection := batchSelection st; textItems := textItems st;
         isAnalyzing := isAnalyzing st; analysisError := analysisError st;
         batchProgress := progress;
         isBatchProcessing := isBatchProcessing st |}
  | UpdateBatchProgress imageIndex entry =>
      {| uploadedImages := uploadedImages st; masterIndex := masterIndex st;
         batchSelection := batchSelection st; textItems := textItems st;
         isAnalyzing := isAnalyzing st; analysisError := analysisError st;
         batchProgress := <[imageIndex := entry]> (batchProgress st);
         isBatchProcessing := isBatchProcessing st |}
  | SetIsBatchProcessing b =>
      {| uploadedImages := uploadedImages st; masterIndex := masterIndex st;
         batchSelection := batchSelection st; textItems := textItems st;
         isAnalyzing := isAnalyzing st; analysisError := analysisError st;
         batchProgress := batchProgress st;
         isBatchProcessing := b |}
  | Alert _ | AwaitExtract _ | AwaitEdit _ _ _ => st
  end.

(** The state once all effects have taken place. *)
Definition run (effects : list Effect) (st : State) : State :=
  foldl apply st effects.

(** The state after each effect, in order. *)
Fixpoint statesAlong (effects : list Effect) (st : State) : list State :=
  match effects with
  | [] => []
  | e :: rest => apply st e :: statesAlong rest (apply st e)
  end.

Definition isRemoteCall (e : Effect) : bool :=
  match e with
  | AwaitExtract _ | AwaitEdit _ _ _ => true
  | _ => false
  end.

(** *** [analyzeMasterImage] *)

Definition unknownAnalysisMessage : string :=
  "An unknown error occurred during analysis.".

Definition toTextItems (extractedText : list TextWithBoundingBox) : list TextItem :=
  imap (λ index item,
          {| id := index; original := text item; modified := text item;
             itemBox := boundingBox item |}) extractedText.

(** [extracted] is what the awaited call to the extraction adapter
    settles with. *)
Definition analyzeMasterImage
    (extracted : JsThrown + list TextWithBoundingBox) (st : State) : list Effect :=
  match masterIndex st ≫= (λ m, uploadedImages st !! m) with
  | None => []
  | Some selected =>
      [SetIsAnalyzing true; SetTextItems []; SetAnalysisError None;
       SetBatchProgress ∅; AwaitExtract (file selected)]
      ++ match extracted with
         | inr extractedText => [SetTextItems (toTextItems extractedText)]
         | inl err => [SetAnalysisError (Some (messageOr unknownAnalysisMessage err))]
         end
      ++ [SetIsAnalyzing false]
  end.

(** *** The synchronous handlers *)

(** [closureMaster] is the [masterIndex] the handler closed over when the
    upload began; the state it updates is the one current when the files
    have been read. *)
Definition handleFileSelect
    (closureMaster : option nat) (newImages : list UploadedImage) (st : State) : State :=
  let updated := uploadedImages st ++ newImages in
  if bool_decide (closureMaster = None) && (0 <? length updated)%nat then
    {| uploadedImages := updated; masterIndex := Some 0%nat;
       batchSelection := [0%nat]; textItems := textItems st;
       isAnalyzing := isAnalyzing st; analysisError := analysisError st;
       batchProgress := batchProgress st;
       isBatchProcessing := isBatchProcessing st |}
  else
    {| uploadedImages := updated; masterIndex := masterIndex st;
       batchSelection := batchSelection st; textItems := textItems st;
       isAnalyzing := isAnalyzing st; analysisError := analysisError st;
       batchProgress := batchProgress st;
       isBatchProcessing := isBatchProcessing st |}.

Definition handleSelectMaster (index : nat) (st : State) : State :=
  {| uploadedImages := uploadedImages st; masterIndex := Some index;
     batchSelection :=
       if negb (has index (batchSelection st))
       then add index (batchSelection st) else batchSelection st;
     textItems := textItems st;
     isAnalyzing := isAnalyzing st; analysisError := analysisError st;
     batchProgress := batchProgress st;
     isBatchProcessing := isBatchProcessing st |}.

Definition handleToggleBatchSelection (index : nat) (st : State) : State :=
  let prev := batchSelection st in
  let newSelection :=
    if has index prev then
      if bool_decide (Some index ≠ masterIndex st) then delete index prev else prev
    else add index prev in
  {| uploadedImages := uploadedImages st; masterIndex := masterIndex st;
     batchSelection := newSelection; textItems := textItems st;
     isAnalyzing := isAnalyzing st; analysisError := analysisError st;
     batchProgress := batchProgress st;
     isBatchProcessing := isBatchProcessing st |}.

Definition handleTextChange (ident : nat) (newText : string) (st : State) : State :=
  {| uploadedImages := uploadedImages st; masterIndex := masterIndex st;
     batchSelection := batchSelection st;
     textItems :=
       map (λ item,
              if bool_decide (id item = ident)
              then {| id := id item; original := original item;
                      modified := newText; itemBox := itemBox item |}
              else item) (textItems st);
     isAnalyzing := isAnalyzing st; analysisError := analysisError st;
     batchProgress := batchProgress st;
     isBatchProcessing := isBatchProcessing st |}.

(** *** [handleSubmit] *)

(** What a batch run meets outside the session state: the mounted
    [<img>] elements ([imageRefs.current]), whether a 2d context can be
    had for the canvas of image [i], what the two adapters settle with
    when awaited for image [i], and the wording the engine gives the
    [TypeError] raised by reading [.file] of [undefined]. *)
Record Env := {
  imageRefs : list (option HTMLImageElement);
  hasContext2d : nat → bool;
  extracted : nat → JsThrown + list TextWithBoundingBox;
  edited : nat → JsThrown + string;
  undefinedFileMessage : string;
}.

(** The body of a [try]: the effects so far, and a value or the
    exception that ended it. *)
Definition Attempt (A : Type) : Type := list Effect * (JsThrown + A).

#[global] Instance Attempt_ret : MRet Attempt := λ A a, ([], inr a).

#[global] Instance Attempt_bind : MBind Attempt := λ A B f m,
  match m with
  | (es, inl err) => (es, inl err)
  | (es, inr a) => let '(es', r) := f a in (es ++ es', r)
  end.

(** [throw new Error(message)] *)
Definition throw {A} (message : string) : Attempt A :=
  ([], inl (ThrownError message)).

(** An awaited adapter call and what it settles with. *)
Definition await {A} (call : Effect) (settles : JsThrown + A) : Attempt A :=
  ([call], settles).

(** The one fill colour of a mask. *)
Definition sentinel : string := "#FF00FF".

(** The test inside [currentImageTextItems.find]. *)
Definition matchesChange (change : TextItem) (item : TextWithBoundingBox) : bool :=
  String.eqb (JsString.trim (text item)) (JsString.trim (original change)).

(** [rectX], [rectY], [rectW] and [rectH] as the callback computes them
    from the found region's box and the canvas size. *)
Definition rectOf (box : BoundingBox) (canvas : Canvas) : Rect :=
  {| rectX := x1 box * inject_Z (width canvas);
     rectY := y1 box * inject_Z (height canvas);
     rectW := (x2 box - x1 box) * inject_Z (width canvas);
     rectH := (y2 box - y1 box) * inject_Z (height canvas) |}.

Definition instructionLine (change : TextItem) : string :=
  "- In the area where " +:+ quote +:+ original change +:+ quote
  +:+ " was, write " +:+ quote +:+ modified change +:+ quote.

(** The callback of [changes.map]: it paints on the canvas and raises
    [hasMasks] as it goes. *)
Definition maskChange (currentImageTextItems : list TextWithBoundingBox)
    (change : TextItem) (s : Canvas * bool) : Canvas * bool * option string :=
  match List.find (matchesChange change) currentImageTextItems with
  | Some foundText =>
      (fillRect (rectOf (boundingBox foundText) (fst s)) (fst s), true,
       Some (instructionLine change))
  | None => (s, None)
  end.

Fixpoint maskChanges (currentImageTextItems : list TextWithBoundingBox)
    (changes : list TextItem) (s : Canvas * bool)
    : Canvas * bool * list (option string) :=
  match changes with
  | [] => (s, [])
  | change :: rest =>
      let '(s1, line) := maskChange currentImageTextItems change s in
      let '(s2, lines) := maskChanges currentImageTextItems rest s1 in
      (s2, line :: lines)
  end.

(** [.filter(Boolean)] *)
Definition filterBoolean (lines : list (option string)) : list string :=
  omap (λ line, if truthy line then line else None) lines.

Definition promptPreamble : string :=
  "I have provided an original image and a version with bright magenta areas (a mask). Your ONLY task is to precisely fill in these magenta areas with new text. The result must be sharp, high-fidelity, and indistinguishable from the original's style, font, color, and perspective. Here are the specific replacements:"
  +:+ newline.

Definition promptPostscript : string :=
  newline +:+ "Do not alter any part of the image outside the magenta areas.".

Definition composePrompt (specificChanges : list string) : string :=
  promptPreamble +:+ String.concat newline specificChanges +:+ promptPostscript.

Definition noMatchMessage : string :=
  "The text to be changed was not found on this image variant.".

Definition elementMissingMessage (imageIndex : nat) : string :=
  "Image element for index " +:+ pretty imageIndex +:+ " not found.".

Definition noContextMessage : string := "Could not create canvas context".

(** Steps 2 and 3 up to the edit call, once the image's own text layout
    is known. *)
Definition buildMask (imageIndex : nat) (imageElement : HTMLImageElement)
    (changes : list TextItem) (currentImageTextItems : list TextWithBoundingBox)
    : Canvas * bool * list string :=
  let canvas := createCanvas (naturalWidth imageElement) (naturalHeight imageElement) in
  let ctx := setFillStyle sentinel (drawImage imageIndex 0 0 canvas) in
  let '(painted, hasMasks, lines) :=
    maskChanges currentImageTextItems changes (ctx, false) in
  (painted, hasMasks, filterBoolean lines).

(** The [try] block of one turn of the loop. *)
Definition tryImage (env : Env) (uploaded : list UploadedImage)
    (changes : list TextItem) (imageIndex : nat) : Attempt string :=
  imageFile ←
    match uploaded !! imageIndex with
    | Some image => mret (file image)
    | None => throw (undefinedFileMessage env)
    end;
  imageElement ←
    match mjoin (imageRefs env !! imageIndex) with
    | Some element => mret element
    | None => throw (elementMissingMessage imageIndex)
    end;
  currentImageTextItems ← await (AwaitExtract imageFile) (extracted env imageIndex);
  _ ← (if hasContext2d env imageIndex then mret () else throw noContextMessage);
  let '(painted, hasMasks, specificChanges) :=
    buildMask imageIndex imageElement changes currentImageTextItems in
  if negb hasMasks then throw noMatchMessage else
  await (AwaitEdit (composePrompt specificChanges) imageFile painted)
        (edited env imageIndex).

Definition unknownErrorMessage : string := "An unknown error occurred.".

Definition succeeded (image : string) : BatchProgress :=
  {| status := BatchStatus.success; result := Some image; error := None |}.

Definition failed (message : string) : BatchProgress :=
  {| status := BatchStatus.error; result := None; error := Some message |}.

(** The entry the turn for one image ends in. *)
Definition outcome (r : JsThrown + string) : BatchProgress :=
  match r with
  | inr image => succeeded image
  | inl err => failed (messageOr unknownErrorMessage err)
  end.

(** One turn of the loop, [try] and [catch]. *)
Definition processImage (env : Env) (uploaded : list UploadedImage)
    (changes : list TextItem) (imageIndex : nat) : list Effect :=
  let '(effects, r) := tryImage env uploaded changes imageIndex in
  effects ++ [UpdateBatchProgress imageIndex (outcome r)].

Definition selectionAlert : string :=
  "Please select a master image and at least one image for the batch.".

Definition noChangesAlert : string :=
  "You haven't made any text changes to apply.".

Definition activeChanges (items : list TextItem) : list TextItem :=
  filter (λ item, original item ≠ modified item) items.

Definition isLoading : BatchProgress :=
  {| status := BatchStatus.loading; result := None; error := None |}.

(** [Object.fromEntries(Array.from(batchSelection).map(...))] *)
Definition initialProgress (selection : list nat) : gmap nat BatchProgress :=
  list_to_map (map (λ idx, (idx, isLoading)) selection).

Definition handleSubmit (env : Env) (st : State) : list Effect :=
  if bool_decide (masterIndex st = None) || (length (batchSelection st) =? 0)%nat
  then [Alert selectionAlert]
  else
    let changes := activeChanges (textItems st) in
    if (length changes =? 0)%nat then [Alert noChangesAlert]
    else
      [SetIsBatchProcessing true;
       SetBatchProgress (initialProgress (batchSelection st))]
      ++ concat (map (processImage env (uploadedImages st) changes)
                     (batchSelection st))
      ++ [SetIsBatchProcessing false].

(** *** Sessions *)

(** What can happen to a session, and the session states that can come
    about. *)
Inductive Event :=
  | FilesSelected (closureMaster : option nat) (newImages : list UploadedImage)
  | MasterSelected (index : nat)
  | SelectionToggled (index : nat)
  | TextChanged (ident : nat) (newText : string)
  | MasterAnalyzed (extractedText : JsThrown + list TextWithBoundingBox)
  | Submitted (env : Env).

Definition handle (ev : Event) (st : State) : State :=
  match ev with
  | FilesSelected closureMaster newImages =>
      handleFileSelect closureMaster newImages st
  | MasterSelected index => handleSelectMaster index st
  | SelectionToggled index => handleToggleBatchSelection index st
  | TextChanged ident newText => handleTextChange ident newText st
  | MasterAnalyzed extractedText => run (analyzeMasterImage extractedText st) st
  | Submitted env => run (handleSubmit env st) st
  end.

Inductive reachable : State → Prop :=
  | reachable_initial : reachable initialState
  | reachable_handle ev st : reachable st → reachable (handle ev st).

(** *** Reading a mask and a run

    Names for what the properties below speak about. *)


(** The entry the loop writes for one image. *)
Definition imageOutcome (env : Env) (uploaded : list UploadedImage)
    (changes : list TextItem) (imageIndex : nat) : BatchProgress :=
  outcome (snd (tryImage env uploaded changes imageIndex)).










(** *** What the rendered page offers

    The handlers are wired to the page: the upload component is shown
    while there is no image and passes on only non-empty drops; the toggle
    and the master button exist once per uploaded image; the edit inputs
    and the submit button belong to the form, which is shown when no
    analysis is running, none has failed and the edit list is not empty,
    with the button disabled while a batch runs.  An upload resolves with
    the [masterIndex] it closed over, which is [null] whenever the current
    one still is. *)
Definition formShown (st : State) : Prop :=
  isAnalyzing st = false ∧ analysisError st = None ∧ textItems st ≠ [].

Definition offered (st : State) (ev : Event) : Prop :=
  match ev with
  | FilesSelected closureMaster newImages =>
      (masterIndex st = None → closureMaster = None)
      ∧ (uploadedImages st = [] → newImages ≠ [])
  | MasterSelected index => (index < length (uploadedImages st))%nat
  | SelectionToggled index => (index < length (uploadedImages st))%nat
  | TextChanged ident _ =>
      formShown st ∧ ∃ item, item ∈ textItems st ∧ id item = ident
  | MasterAnalyzed _ => True
  | Submitted _ => formShown st ∧ isBatchProcessing st = false
  end.

Inductive reachableUI : State → Prop :=
  | reachableUI_initial : reachableUI initialState
  | reachableUI_handle ev st :
      reachableUI st → offered st ev → reachableUI (handle ev st).

(** [{ ...item, modified: newText }] *)
Definition withModified (newText : string) (item : TextItem) : TextItem :=
  {| id := id item; original := original item; modified := newText;
     itemBox := itemBox item |}.


(** The effects a batch run may have: all but the three of the master
    analysis. *)
Definition isBatchEffect (e : Effect) : bool :=
  match e with
  | SetIsAnalyzing _ | SetTextItems _ | SetAnalysisError _ => false
  | _ => true
  end.

(** What holds of the indices in a state the page can be in. *)
Definition indicesInRange (st : State) : Prop :=
  (∀ i, i ∈ batchSelection st → (i < length (uploadedImages st))%nat)
  ∧ (∀ m, masterIndex st = Some m → (m < length (uploadedImages st))%nat)
  ∧ (masterIndex st = None → uploadedImages st = [])
  ∧ (textItems st ≠ [] → is_Some (masterIndex st)).

End Editor.

(** ** [src/components/ImageGenerator.tsx] *)
Module Generator.

(** [AspectRatios] of [src/types.ts]. *)
Inductive AspectRatio := ratio_1_1 | ratio_16_9 | ratio_9_16 | ratio_4_3 | ratio_3_4.

Definition ratioText (r : AspectRatio) : string :=
  match r with
  | ratio_1_1 => "1:1"
  | ratio_16_9 => "16:9"
  | ratio_9_16 => "9:16"
  | ratio_4_3 => "4:3"
  | ratio_3_4 => "3:4"
  end.

Record State := {
  prompt : string;
  aspectRatio : AspectRatio;
  generatedImages : list string;
  isLoading : bool;
  error : option string;
}.

Definition initialState : State :=
  {| prompt := ""; aspectRatio := ratio_1_1; generatedImages := [];
     isLoading := false; error := None |}.

Inductive Effect :=
  | SetIsLoading (b : bool)
  | SetError (e : option string)
  | SetGeneratedImages (images : list string)
  | AwaitGenerate (prompt aspectRatio : string).

Definition apply (st : State) (e : Effect) : State :=
  match e with
  | SetIsLoading b =>
      {| prompt := prompt st; aspectRatio := aspectRatio st;
         generatedImages := generatedImages st; isLoading := b;
         error := error st |}
  | SetError e =>
      {| prompt := prompt st; aspectRatio := aspectRatio st;
         generatedImages := generatedImages st; isLoading := isLoading st;
         error := e |}
  | SetGeneratedImages images =>
      {| prompt := prompt st; aspectRatio := aspectRatio st;
         generatedImages := images; isLoading := isLoading st;
         error := error st |}
  | AwaitGenerate _ _ => st
  end.

Definition run (effects : list Effect) (st : State) : State :=
  foldl apply st effects.

Fixpoint statesAlong (effects : list Effect) (st : State) : list State :=
  match effects with
  | [] => []
  | e :: rest => apply st e :: statesAlong rest (apply st e)
  end.

Definition promptAlert : string := "Please enter a prompt.".

Definition unknownErrorMessage : string := "An unknown error occurred.".

(** [generated] is what the awaited [generateImage] settles with. *)
Definition handleSubmit (generated : JsThrown + list string) (st : State)
    : list Effect :=
  if String.eqb (JsString.trim (prompt st)) "" then [SetError (Some promptAlert)]
  else
    [SetIsLoading true; SetError None; SetGeneratedImages [];
     AwaitGenerate (prompt st) (ratioText (aspectRatio st))]
    ++ match generated with
       | inr images => [SetGeneratedImages images]
       | inl err => [SetError (Some (messageOr unknownErrorMessage err))]
       end
    ++ [SetIsLoading false].

End Generator.

(** ** The upload component ([ImageUpload]) *)
Module Upload.

Inductive Effect :=
  | PreventDefault
  | StopPropagation
  | SetIsDragging (b : bool)
  | OnFilesSelect (files : list File)
  | ClearData.

(** [type] is [e.type]. *)
Definition handleDrag (type : string) : list Effect :=
  [PreventDefault; StopPropagation]
  ++ (if String.eqb type "dragenter" || String.eqb type "dragover"
      then [SetIsDragging true]
      else if String.eqb type "dragleave" then [SetIsDragging false]
      else []).

(** [files] is [e.dataTransfer.files], [None] when there is none. *)
Definition handleDrop (files : option (list File)) : list Effect :=
  [PreventDefault; StopPropagation; SetIsDragging false]
  ++ match files with
     | Some (f :: rest) => [OnFilesSelect (f :: rest); ClearData]
     | _ => []
     end.

(** [files] is [e.target.files]. *)
Definition handleChange (files : option (list File)) : list Effect :=
  match files with
  | Some (f :: rest) => [OnFilesSelect (f :: rest)]
  | _ => []
  end.

(** The [isDragging] state once the effects have taken place. *)
Definition dragging (effects : list Effect) (isDragging : bool) : bool :=
  foldl (λ d e, match e with SetIsDragging b => b | _ => d end) isDragging effects.

(** The file lists handed to [onFilesSelect]. *)
Definition selections (effects : list Effect) : list (list File) :=
  omap (λ e, match e with OnFilesSelect files => Some files | _ => None end) effects.

End Upload.

Import Editor.

(** * Sample data *)

Definition sampleFile : File :=
  {| fileName := "banner.png"; fileType := "image/png"; fileBase64 := "iVBORw0KGgo=" |}.

(** A reply that follows the response schema and gives the coordinates as
    percentages, as the prompt words it. *)
Definition percentReply : string :=
  JsString.dq
    "[{`text`: `SALE`, `boundingBox`: {`x1`: 10, `y1`: 15, `x2`: 40, `y2`: 20}}]".

Definition percentValue : Json.JSON :=
  Json.JArr
    [Json.JObj
       [("text", Json.JStr "SALE");
        ("boundingBox",
         Json.JObj [("x1", Json.JNum 10); ("y1", Json.JNum 15);
                    ("x2", Json.JNum 40); ("y2", Json.JNum 20)])]].


Definition safetyResponse : GenerateContentResponse :=
  {| candidates :=
       Some [{| content := None; finishReason := Some "SAFETY" |}] |}.

Definition masterBox : BoundingBox :=
  {| x1 := 0; y1 := 0; x2 := 0.2; y2 := 0.1 |}.

Definition saleEdit : TextItem :=
  {| id := 0; original := "SALE"; modified := "CLEARANCE"; itemBox := masterBox |}.

Definition secondImageBox : BoundingBox :=
  {| x1 := 0.5; y1 := 0.6; x2 := 0.9; y2 := 0.75 |}.

Definition secondImageRegions : list TextWithBoundingBox :=
  [{| text := "50% OFF"; boundingBox := masterBox |};
   {| text := " SALE "; boundingBox := secondImageBox |}].


Definition specBox : BoundingBox :=
  {| x1 := 0.1; y1 := 0.2; x2 := 0.5; y2 := 0.4 |}.

Definition specElement : HTMLImageElement :=
  {| naturalWidth := 1000; naturalHeight := 500 |}.


Definition sampleImage (name : string) : UploadedImage :=
  {| file := {| fileName := name; fileType := "image/png"; fileBase64 := "iVBORw0KGgo=" |};
     base64 := "data:image/png;base64,iVBORw0KGgo=" |}.

Definition sampleImages : list UploadedImage :=
  [sampleImage "a.png"; sampleImage "b.png"; sampleImage "c.png"; sampleImage "d.png"].

Definition masterRegions : list TextWithBoundingBox :=
  [{| text := "SALE"; boundingBox := masterBox |};
   {| text := "50% OFF"; boundingBox := specBox |}].

Definition otherRegions : list TextWithBoundingBox :=
  [{| text := "Sale"; boundingBox := masterBox |}].

(** Four uploads, the first one master; SALE rewritten; all four selected. *)
Definition sampleState : State :=
  handle (SelectionToggled 3)
    (handle (SelectionToggled 2)
       (handle (SelectionToggled 1)
          (handle (TextChanged 0 "CLEARANCE")
             (handle (MasterAnalyzed (inr masterRegions))
                (handle (FilesSelected None sampleImages) initialState))))).

(** Image 0 is edited; the edit of image 1 is blocked; the extraction of
    image 2 fails; image 3 does not show the text. *)
Definition sampleEnv : Env :=
  {| imageRefs := replicate 4 (Some specElement);
     hasContext2d := λ _, true;
     extracted := λ i,
       match i with
       | 0%nat => inr masterRegions
       | 1%nat => inr secondImageRegions
       | 2%nat => inl (ThrownError malformedResponseMessage)
       | _ => inr otherRegions
       end;
     edited := λ i,
       match i with
       | 0%nat => inr "data:image/png;base64,AAAA"
       | _ => settled (editImage true (λ _, inr safetyResponse) "" sampleFile None)
       end;
     undefinedFileMessage := "Cannot read properties of undefined (reading 'file')" |}.


(** A generator form whose prompt is white space, and one with a prompt
    and the images and error of an earlier try. *)
Definition blankGenerator : Generator.State :=
  {| Generator.prompt := "   ";
     Generator.aspectRatio := Generator.ratio_16_9;
     Generator.generatedImages := ["data:image/jpeg;base64,AAAA"];
     Generator.isLoading := false;
     Generator.error := None |}.

Definition catGenerator : Generator.State :=
  {| Generator.prompt := " a cat ";
     Generator.aspectRatio := Generator.ratio_4_3;
     Generator.generatedImages := ["data:image/jpeg;base64,AAAA"];
     Generator.isLoading := false;
     Generator.error := Some "Please enter a prompt." |}.

Definition catResponse : GenerateImagesResponse :=
  {| generatedImages := Some (map jpegOf ["QUFB"; "QkJC"]) |}.

(** A reply of the extraction with white space around it. *)
Definition paddedReply : string := "  [] ".

(** * Properties *)

(** ** The models of the language built-ins *)

(** [trim] stops only when no white space is left at either end. *)
Module JsStringFacts.
Import JsString.

Lemma dropWsFront_shorter l l' :
  dropWsFront l = Some l' → (length l' < length l)%nat.
Proof.
  unfold dropWsFront. intros H.
  repeat case_match; simplify_eq; simpl; lia.
Qed.

Lemma dropWsBack_shorter l l' :
  dropWsBack l = Some l' → (length l' < length l)%nat.
Proof.
  unfold dropWsBack. intros H.
  repeat case_match; simplify_eq; simpl; lia.
Qed.

Lemma strip_settles drop fuel l :
  (∀ k k', drop k = Some k' → (length k' < length k)%nat) →
  (length l ≤ fuel)%nat →
  drop (strip drop fuel l) = None.
Proof.
  intros Hshorter. revert l.
  induction fuel as [|fuel IH]; intros l Hl; simpl.
  - destruct (drop l) as [l'|] eqn:Hdrop; [|done].
    apply Hshorter in Hdrop. lia.
  - destruct (drop l) as [l'|] eqn:Hdrop; [|done].
    apply IH. apply Hshorter in Hdrop. lia.
Qed.

Lemma trimStartBytes_settles l : dropWsFront (trimStartBytes l) = None.
Proof. apply strip_settles; [apply dropWsFront_shorter|done]. Qed.

Lemma trimEndBytes_settles l : dropWsBack (reverse (trimEndBytes l)) = None.
Proof.
  unfold trimEndBytes. rewrite reverse_involutive.
  apply strip_settles; [apply dropWsBack_shorter|by rewrite length_reverse].
Qed.

(** A no-break space (U+00A0) and a line feed go, inner spaces stay. *)
Example trim_sample :
  trim (String (ascii_of_nat 194) (String (ascii_of_nat 160) " 50% OFF
")) = "50% OFF".
Proof. reflexivity. Qed.

End JsStringFacts.

(** The reference parser: more fuel never changes a result, and the fuel
    [Json.parse] gives, one unit per byte, is enough. *)
Module JsonFacts.
Import Json.

Lemma skipWs_length l : (length (skipWs l) ≤ length l)%nat.
Proof. induction l as [|a l IH]; simpl; [lia|]. destruct (isJsonWs a); simpl; lia. Qed.

Lemma expect_length lit l r :
  expect lit l = Some r → (length r + length lit = length l)%nat.
Proof.
  revert l. induction lit as [|c lit IH]; intros l; simpl.
  - intros [= ->]. lia.
  - destruct l as [|a l]; [done|]. destruct (Ascii.eqb c a); [|done].
    intros H%IH. simpl. lia.
Qed.

Lemma takeDigits_length acc count l v count' r :
  takeDigits acc count l = (v, count', r) →
  (length r + count' = length l + count)%nat.
Proof.
  revert acc count. induction l as [|a l IH]; intros acc count; simpl.
  - intros [= <- <- <-]. simpl. lia.
  - destruct (digitVal a).
    + intros H%IH. lia.
    + intros [= <- <- <-]. simpl. lia.
Qed.

Lemma parseNumber_shorter l q r :
  parseNumber l = Some (q, r) → (length r < length l)%nat.
Proof.
  unfold parseNumber, parseFraction, parseExponent. intros H.
  repeat (case_match; simplify_eq);
    repeat match goal with
           | H : takeDigits _ _ _ = _ |- _ => apply takeDigits_length in H
           end; simpl in *; lia.
Qed.

Lemma parsePieces_shorter l acc ps r :
  parsePieces l acc = Some (ps, r) → (length r < length l)%nat.
Proof.
  remember (length l) as n eqn:Hn. revert l acc Hn.
  induction n as [n IH] using lt_wf_ind. intros l acc -> H.
  destruct l as [|a l]; [done|]. simpl in H.
  repeat (case_match; simplify_eq); simpl;
    try match goal with
        | H : parsePieces ?k _ = Some _ |- _ =>
            apply (IH (length k)) in H; simpl in *; [lia|lia|done]
        end.
  lia.
Qed.

Lemma parseString_shorter l s r :
  parseString l = Some (s, r) → (length r < length l)%nat.
Proof.
  unfold parseString. destruct (parsePieces l []) as [[ps r']|] eqn:H; [|done].
  intros [= <- <-]. by apply parsePieces_shorter in H.
Qed.

Section Steps.
Context (value value' : list ascii → option (JSON * list ascii))
        (elements elements' : list ascii → list JSON → option (JSON * list ascii))
        (members members' : list ascii → list (string * JSON) → option (JSON * list ascii)).
Hypothesis Hvalue : ∀ l r, value l = Some r → value' l = Some r.
Hypothesis Helements : ∀ l acc r, elements l acc = Some r → elements' l acc = Some r.
Hypothesis Hmembers : ∀ l acc r, members l acc = Some r → members' l acc = Some r.

Lemma valueStep_mono l r :
  valueStep elements members l = Some r → valueStep elements' members' l = Some r.
Proof. unfold valueStep. intros H. repeat case_match; simplify_eq; eauto. Qed.

Lemma elementsStep_mono l acc r :
  elementsStep value elements l acc = Some r → elementsStep value' elements' l acc = Some r.
Proof.
  unfold elementsStep. intros H.
  destruct (value l) as [[v r1]|] eqn:Hv; [|done].
  rewrite (Hvalue _ _ Hv). repeat case_match; simplify_eq; eauto.
Qed.

Lemma membersStep_mono l acc r :
  membersStep value members l acc = Some r → membersStep value' members' l acc = Some r.
Proof.
  unfold membersStep. intros H.
  destruct (skipWs l) as [|q r0]; [done|].
  destruct (N_of_ascii q =? 34)%N; [|done].
  destruct (parseString r0) as [[k r1]|]; [|done].
  destruct (skipWs r1) as [|c r2]; [done|].
  destruct (Ascii.eqb c ":"); [|done].
  destruct (value r2) as [[v r3]|] eqn:Hv; [|done].
  rewrite (Hvalue _ _ Hv).
  destruct (skipWs r3) as [|d r4]; [done|].
  destruct (Ascii.eqb d ","); [by apply Hmembers|done].
Qed.
End Steps.

Lemma parse_more_fuel n :
  (∀ l r, parseValue n l = Some r → parseValue (S n) l = Some r)
  ∧ (∀ l acc r, parseElements n l acc = Some r → parseElements (S n) l acc = Some r)
  ∧ (∀ l acc r, parseMembers n l acc = Some r → parseMembers (S n) l acc = Some r).
Proof.
  induction n as [|n (IHv & IHe & IHm)]; [done|].
  split; [|split]; intros ?; intros.
  - by eapply valueStep_mono.
  - by eapply elementsStep_mono.
  - by eapply membersStep_mono.
Qed.

Lemma parseValue_fuel_le n m l r :
  (n ≤ m)%nat → parseValue n l = Some r → parseValue m l = Some r.
Proof. induction 1; [done|]. intros. by apply parse_more_fuel, IHle. Qed.

Lemma parseElements_fuel_le n m l acc r :
  (n ≤ m)%nat → parseElements n l acc = Some r → parseElements m l acc = Some r.
Proof. induction 1; [done|]. intros. by apply parse_more_fuel, IHle. Qed.

Lemma parseMembers_fuel_le n m l acc r :
  (n ≤ m)%nat → parseMembers n l acc = Some r → parseMembers m l acc = Some r.
Proof. induction 1; [done|]. intros. by apply parse_more_fuel, IHle. Qed.

Lemma skipWs_cons l a r : skipWs l = a :: r → (S (length r) ≤ length l)%nat.
Proof. intros H. pose proof (skipWs_length l) as Hl. rewrite H in Hl. done. Qed.

Lemma expect_shorter lit l r :
  lit ≠ [] → expect lit l = Some r → (length r < length l)%nat.
Proof.
  intros Hlit H%expect_length. destruct lit; [done|]. simpl in H. lia.
Qed.


Section StepsByBytes.
Context (value : list ascii → option (JSON * list ascii))
        (elements : list ascii → list JSON → option (JSON * list ascii))
        (members : list ascii → list (string * JSON) → option (JSON * list ascii)).
Hypothesis Hvalue : ∀ l v rest,
  value l = Some (v, rest) →
  (length rest < length l)%nat
  ∧ parseValue (length l - length rest) l = Some (v, rest).
Hypothesis Helements : ∀ l acc v rest,
  elements l acc = Some (v, rest) →
  (length rest < length l)%nat
  ∧ parseElements (length l - length rest) l acc = Some (v, rest).
Hypothesis Hmembers : ∀ l acc v rest,
  members l acc = Some (v, rest) →
  (length rest < length l)%nat
  ∧ parseMembers (length l - length rest) l acc = Some (v, rest).

Lemma valueStep_by_bytes l v rest :
  valueStep elements members l = Some (v, rest) →
  (length rest < length l)%nat
  ∧ ∀ k, (length l - length rest ≤ S k)%nat →
         valueStep (parseElements k) (parseMembers k) l = Some (v, rest).
Proof.
  unfold valueStep.
  destruct (skipWs l) as [|a r] eqn:Hl; [done|].
  pose proof (skipWs_cons _ _ _ Hl) as Hr. cbn zeta.
  destruct (N_of_ascii a =? 110)%N.
  { destruct (expect _ _) as [r0|] eqn:He; [|done]. intros [= <- <-].
    apply expect_length in He. simpl in He. split; [lia|done]. }
  destruct (N_of_ascii a =? 116)%N.
  { destruct (expect _ _) as [r0|] eqn:He; [|done]. intros [= <- <-].
    apply expect_length in He. simpl in He. split; [lia|done]. }
  destruct (N_of_ascii a =? 102)%N.
  { destruct (expect _ _) as [r0|] eqn:He; [|done]. intros [= <- <-].
    apply expect_length in He. simpl in He. split; [lia|done]. }
  destruct (N_of_ascii a =? 34)%N.
  { destruct (parseString r) as [[s r0]|] eqn:Hs; [|done]. intros [= <- <-].
    apply parseString_shorter in Hs. split; [lia|done]. }
  destruct (N_of_ascii a =? 91)%N.
  { destruct (skipWs r) as [|c r'] eqn:Hws; [done|].
    pose proof (skipWs_cons _ _ _ Hws) as Hr'.
    destruct (Ascii.eqb c "]").
    - intros [= <- <-]. split; [lia|done].
    - intros [Hrest H]%Helements. split; [lia|]. intros k Hk.
      eapply parseElements_fuel_le; [|exact H]. lia. }
  destruct (N_of_ascii a =? 123)%N.
  { destruct (skipWs r) as [|c r'] eqn:Hws; [done|].
    pose proof (skipWs_cons _ _ _ Hws) as Hr'.
    destruct (Ascii.eqb c "}").
    - intros [= <- <-]. split; [lia|done].
    - intros [Hrest H]%Hmembers. split; [lia|]. intros k Hk.
      eapply parseMembers_fuel_le; [|exact H]. lia. }
  destruct (parseNumber (a :: r)) as [[q r0]|] eqn:Hn; [|done].
  intros [= <- <-]. apply parseNumber_shorter in Hn. simpl in Hn.
  split; [lia|done].
Qed.

Lemma elementsStep_by_bytes l acc v rest :
  elementsStep value elements l acc = Some (v, rest) →
  (length rest < length l)%nat
  ∧ ∀ k, (length l - length rest ≤ S k)%nat →
         elementsStep (parseValue k) (parseElements k) l acc = Some (v, rest).
Proof.
  unfold elementsStep.
  destruct (value l) as [[v1 r1]|] eqn:Hv; [|done].
  apply Hvalue in Hv as [Hr1 Hv].
  destruct (skipWs r1) as [|c r'] eqn:Hws; [done|].
  pose proof (skipWs_cons _ _ _ Hws) as Hr'.
  destruct (Ascii.eqb c ",") eqn:Hcomma.
  - intros [Hrest H]%Helements. split; [lia|]. intros k Hk.
    rewrite (parseValue_fuel_le (length l - length r1) k _ _ ltac:(lia) Hv), Hws, Hcomma.
    eapply parseElements_fuel_le; [|exact H]. lia.
  - destruct (Ascii.eqb c "]") eqn:Hclose; [|done].
    intros [= <- <-]. split; [lia|]. intros k Hk.
    by rewrite (parseValue_fuel_le (length l - length r1) k _ _ ltac:(lia) Hv), Hws, Hcomma, Hclose.
Qed.

Lemma membersStep_by_bytes l acc v rest :
  membersStep value members l acc = Some (v, rest) →
  (length rest < length l)%nat
  ∧ ∀ k, (length l - length rest ≤ S k)%nat →
         membersStep (parseValue k) (parseMembers k) l acc = Some (v, rest).
Proof.
  unfold membersStep.
  destruct (skipWs l) as [|q r0] eqn:Hl; [done|].
  pose proof (skipWs_cons _ _ _ Hl) as Hr0.
  destruct (N_of_ascii q =? 34)%N; [|done].
  destruct (parseString r0) as [[key r1]|] eqn:Hs; [|done].
  apply parseString_shorter in Hs.
  destruct (skipWs r1) as [|c r2] eqn:Hws1; [done|].
  pose proof (skipWs_cons _ _ _ Hws1) as Hr2.
  destruct (Ascii.eqb c ":"); [|done].
  destruct (value r2) as [[v1 r3]|] eqn:Hv; [|done].
  apply Hvalue in Hv as [Hr3 Hv].
  destruct (skipWs r3) as [|d r4] eqn:Hws3; [done|].
  pose proof (skipWs_cons _ _ _ Hws3) as Hr4.
  destruct (Ascii.eqb d ",") eqn:Hcomma.
  - intros [Hrest H]%Hmembers. split; [lia|]. intros k Hk.
    rewrite (parseValue_fuel_le (length r2 - length r3) k _ _ ltac:(lia) Hv), Hws3, Hcomma.
    eapply parseMembers_fuel_le; [|exact H]. lia.
  - destruct (Ascii.eqb d "}") eqn:Hclose; [|done].
    intros [= <- <-]. split; [lia|]. intros k Hk.
    by rewrite (parseValue_fuel_le (length r2 - length r3) k _ _ ltac:(lia) Hv), Hws3, Hcomma, Hclose.
Qed.
End StepsByBytes.

(** A successful parse never needs more fuel than the bytes it reads. *)
Lemma parse_fuel_by_bytes m :
  (∀ l v rest, parseValue m l = Some (v, rest) →
     (length rest < length l)%nat
     ∧ parseValue (length l - length rest) l = Some (v, rest))
  ∧ (∀ l acc v rest, parseElements m l acc = Some (v, rest) →
       (length rest < length l)%nat
       ∧ parseElements (length l - length rest) l acc = Some (v, rest))
  ∧ (∀ l acc v rest, parseMembers m l acc = Some (v, rest) →
       (length rest < length l)%nat
       ∧ parseMembers (length l - length rest) l acc = Some (v, rest)).
Proof.
  induction m as [|m (IHv & IHe & IHm)]; [done|].
  split; [|split].
  - intros l v rest [Hrest H]%(valueStep_by_bytes _ _ IHe IHm).
    split; [done|].
    destruct (length l - length rest)%nat as [|k] eqn:Hk; [lia|].
    apply H. lia.
  - intros l acc v rest [Hrest H]%(elementsStep_by_bytes _ _ IHv IHe).
    split; [done|].
    destruct (length l - length rest)%nat as [|k] eqn:Hk; [lia|].
    apply H. lia.
  - intros l acc v rest [Hrest H]%(membersStep_by_bytes _ _ IHv IHm).
    split; [done|].
    destruct (length l - length rest)%nat as [|k] eqn:Hk; [lia|].
    apply H. lia.
Qed.

(** The fuel [parse] gives is enough: whatever any amount of fuel can
    parse, [parse] parses. *)
Theorem parse_fuel_enough s fuel v rest :
  parseValue fuel (bytes s) = Some (v, rest) →
  skipWs rest = [] →
  parse s = Some v.
Proof.
  intros [Hrest H]%parse_fuel_by_bytes Hws. unfold parse.
  rewrite (parseValue_fuel_le (length (bytes s) - length rest) (length (bytes s)) _ _ ltac:(lia) H).
  by rewrite Hws.
Qed.

End JsonFacts.

(** ** The text extraction adapter *)

Lemma isCoordinate_number v :
  isCoordinate v = true → ∃ q, asNumber v = Some q ∧ inUnit q = true.
Proof. destruct v as [[]|]; try done. intros H. by eexists. Qed.

Lemma isBoundingBox_typed v :
  isBoundingBox v = true → ∃ box, asBoundingBox v = Some box ∧ boxInUnit box.
Proof.
  destruct v as [[]|]; try done. simpl.
  rewrite !andb_true_iff.
  intros [[[(a & -> & Ha)%isCoordinate_number
              (b & -> & Hb)%isCoordinate_number]
             (c & -> & Hc)%isCoordinate_number]
            (d & -> & Hd)%isCoordinate_number].
  by eexists.
Qed.

Lemma isTextRegion_typed v :
  isTextRegion v = true →
  ∃ region, asTextWithBoundingBox v = Some region ∧ boxInUnit (boundingBox region).
Proof.
  destruct v; try done. simpl.
  destruct (Json.get "text" members) as [[]|]; try done.
  intros (box & -> & Hbox)%isBoundingBox_typed. by eexists.
Qed.

(** A parsed value that passes the checks of the data model reads as a
    list of the declared type with every coordinate in the unit interval. *)
Lemma isTextRegionList_typed v :
  isTextRegionList v = true →
  ∃ regions, asTextWithBoundingBoxes v = Some regions
             ∧ Forall (λ region, boxInUnit (boundingBox region)) regions.
Proof.
  destruct v; try done. simpl.
  induction items as [|item items IH]; simpl.
  - intros _. by exists [].
  - rewrite andb_true_iff.
    intros [(region & Hregion & Hbox)%isTextRegion_typed
              (regions & Hregions & Hboxes)%IH].
    exists (region :: regions). split; [|by constructor].
    cbn. rewrite Hregion. cbn. rewrite Hregions. done.
Qed.

Lemma extract_returns_out_of_range_box :
  settled (extractTextWithBoundingBoxes Json.parse true
             (λ _, inr (Some percentReply)) sampleFile) = inr percentValue
  ∧ asTextWithBoundingBoxes percentValue
    = Some [{| text := "SALE";
               boundingBox := {| x1 := 10; y1 := 15; x2 := 40; y2 := 20 |} |}]
  ∧ isTextRegionList percentValue = false.
Proof. repeat split; vm_compute; reflexivity. Qed.

(** C1 (amended).  With the API key in place the adapter sends one
    request.  When the call itself fails, its exception is passed on.
    Whatever text the remote service answers with, the adapter either
    settles with exactly the value [JSON.parse] gives for the trimmed
    text, unchecked, or, when there is no text or it is not JSON, throws
    the one error with the fixed message; the raw text is written to the
    console and nowhere else. *)
Theorem extract_settles_with_parsed_value
    (JSON_parse : string → option Json.JSON)
    (remote : Request → JsThrown + option string)
    (imageFile : File) :
  let ran := extractTextWithBoundingBoxes JSON_parse true remote imageFile in
  sent ran = [ocrRequest imageFile]
  ∧ (∀ err, remote (ocrRequest imageFile) = inl err →
       settled ran = inl err ∧ logged ran = [])
  ∧ (∀ raw,
       remote (ocrRequest imageFile) = inr raw →
       (∀ t v, raw = Some t → JSON_parse (JsString.trim t) = Some v →
          settled ran = inr v ∧ logged ran = [])
       ∧ (raw = None ∨ (∃ t, raw = Some t ∧ JSON_parse (JsString.trim t) = None) →
            settled ran
            = inl (ThrownError
                     "The AI could not extract text and location data in the expected format. Please try another image.")
            ∧ logged ran = [raw])).
Proof.
  intros ran. subst ran. unfold extractTextWithBoundingBoxes.
  split; [|split].
  - destruct (remote _) as [err|raw]; [done|].
    by destruct (parseOcrText JSON_parse raw).
  - by intros err ->.
  - intros raw ->. unfold parseOcrText.
    destruct raw as [t|]; simpl.
    + destruct (JSON_parse (JsString.trim t)) as [v|] eqn:Hparse; simpl.
      * split.
        -- intros t' v' [= <-] Hv. rewrite Hparse in Hv. by injection Hv as ->.
        -- intros [|(t' & [= <-] & Hnone)]; [done|]. congruence.
      * split; [|done]. intros t' v' [= <-] Hv. congruence.
    + split; [done|]. done.
Qed.

Lemma extract_settles_with_parsed_value_witness :
  settled (extractTextWithBoundingBoxes Json.parse true
             (λ _, inr (Some "<html>Service unavailable</html>")) sampleFile)
  = inl (ThrownError malformedResponseMessage)
  ∧ logged (extractTextWithBoundingBoxes Json.parse true
              (λ _, inr (Some "<html>Service unavailable</html>")) sampleFile)
    = [Some "<html>Service unavailable</html>"].
Proof.
  destruct (extract_settles_with_parsed_value Json.parse
              (λ _, inr (Some "<html>Service unavailable</html>")) sampleFile)
    as (_ & _ & Hanswer).
  destruct (Hanswer (Some "<html>Service unavailable</html>") eq_refl)
    as (_ & Hmalformed).
  apply Hmalformed. right. by eexists.
Defined.

(** ** The edit adapter *)


Lemma firstInlineData_first before part blob after :
  Forall (λ p, inlineData p = None) before →
  inlineData part = Some blob →
  firstInlineData (before ++ part :: after) = Some blob.
Proof.
  intros Hbefore Hpart. induction Hbefore as [|p ps Hp _ IH]; simpl.
  - by rewrite Hpart.
  - by rewrite Hp.
Qed.

Lemma firstInlineData_none ps :
  Forall (λ p, inlineData p = None) ps → firstInlineData ps = None.
Proof.
  induction 1 as [|p ps Hp _ IH]; simpl; [done|]. by rewrite Hp.
Qed.

Lemma eqb_string_false (a b : string) : a ≠ b → String.eqb a b = false.
Proof. intros. by apply String.eqb_neq. Qed.

Lemma editImage_settled remote prompt imageFile mask :
  settled (editImage true remote prompt imageFile mask)
  = match remote (editRequest prompt imageFile mask) with
    | inl err => inl err
    | inr response => readEditResponse response
    end.
Proof. unfold editImage. by destruct (remote _). Qed.



(** ** Session state under the handlers *)

Lemma apply_keeps_selection st e :
  masterIndex (apply st e) = masterIndex st
  ∧ batchSelection (apply st e) = batchSelection st
  ∧ uploadedImages (apply st e) = uploadedImages st.
Proof. by destruct e. Qed.

Lemma run_keeps_selection effects st :
  masterIndex (run effects st) = masterIndex st
  ∧ batchSelection (run effects st) = batchSelection st
  ∧ uploadedImages (run effects st) = uploadedImages st.
Proof.
  revert st. induction effects as [|e effects IH]; intros st; [done|].
  unfold run in *. simpl.
  destruct (IH (apply st e)) as (-> & -> & ->). apply apply_keeps_selection.
Qed.

Lemma has_spec index s : has index s = true ↔ index ∈ s.
Proof. unfold has. by rewrite bool_decide_eq_true. Qed.

Lemma elem_of_add index j s : j ∈ add index s ↔ j = index ∨ j ∈ s.
Proof.
  unfold add. destruct (has index s) eqn:H.
  - apply has_spec in H. split; [auto|]. by intros [->|].
  - rewrite elem_of_app, list_elem_of_singleton. tauto.
Qed.

Lemma elem_of_delete index j s : j ∈ delete index s ↔ j ≠ index ∧ j ∈ s.
Proof. unfold delete. by rewrite list_elem_of_filter. Qed.

Lemma NoDup_add index s : NoDup s → NoDup (add index s).
Proof.
  intros Hs. unfold add. destruct (has index s) eqn:H; [done|].
  apply NoDup_app. split; [done|]. split; [|apply NoDup_singleton].
  intros j Hj ->%list_elem_of_singleton.
  apply has_spec in Hj. congruence.
Qed.

Lemma NoDup_delete index s : NoDup s → NoDup (delete index s).
Proof. apply NoDup_filter. Qed.

(** The selection of a reachable session never lists an index twice. *)
Lemma reachable_NoDup st : reachable st → NoDup (batchSelection st).
Proof.
  induction 1 as [|ev st _ IH]; [constructor|].
  destruct ev; simpl.
  - unfold handleFileSelect.
    destruct (_ && _); simpl; [apply NoDup_singleton|done].
  - destruct (negb _); [by apply NoDup_add|done].
  - destruct (has _ _); [|by apply NoDup_add].
    destruct (bool_decide _); [by apply NoDup_delete|done].
  - done.
  - by destruct (run_keeps_selection (analyzeMasterImage extractedText st) st)
      as (_ & -> & _).
  - by destruct (run_keeps_selection (handleSubmit env st) st) as (_ & -> & _).
Qed.

(** C9.  In every reachable session state the master index, when set, is
    in the batch selection.  Setting an index as master puts it in the
    selection if it was not there, the first upload makes index 0 master
    and selected, and toggling the master's own index leaves the selection
    as it is. *)
Theorem master_is_selected :
  (∀ st, reachable st → ∀ m, masterIndex st = Some m → m ∈ batchSelection st)
  ∧ (∀ index st,
       masterIndex (handleSelectMaster index st) = Some index
       ∧ index ∈ batchSelection (handleSelectMaster index st)
       ∧ (∀ j, j ∈ batchSelection st → j ∈ batchSelection (handleSelectMaster index st)))
  ∧ (∀ newImages st,
       uploadedImages st = [] → masterIndex st = None → newImages ≠ [] →
       masterIndex (handleFileSelect (masterIndex st) newImages st) = Some 0%nat
       ∧ batchSelection (handleFileSelect (masterIndex st) newImages st) = [0%nat])
  ∧ (∀ m st,
       masterIndex st = Some m → m ∈ batchSelection st →
       masterIndex (handleToggleBatchSelection m st) = Some m
       ∧ batchSelection (handleToggleBatchSelection m st) = batchSelection st).
Proof.
  split; [|split; [|split]].
  - induction 1 as [|ev st _ IH]; [done|]. intros m.
    destruct ev; simpl.
    + unfold handleFileSelect. destruct (_ && _); simpl; [|by apply IH].
      intros [= <-]. apply list_elem_of_singleton. done.
    + intros [= <-]. destruct (has index _) eqn:H; simpl.
      * by apply has_spec.
      * apply elem_of_add. by left.
    + intros Hm. specialize (IH m Hm).
      destruct (has index _) eqn:H.
      * case_bool_decide as Hne; [|done].
        apply elem_of_delete. split; [|done]. congruence.
      * apply elem_of_add. by right.
    + apply IH.
    + destruct (run_keeps_selection (analyzeMasterImage extractedText st) st)
        as (-> & -> & _). apply IH.
    + destruct (run_keeps_selection (handleSubmit env st) st) as (-> & -> & _).
      apply IH.
  - intros index st. simpl. split; [done|].
    destruct (has index _) eqn:H; simpl.
    + split; [by apply has_spec|done].
    + split; [apply elem_of_add; by left|].
      intros j Hj. apply elem_of_add. by right.
  - intros newImages st Hup Hm Hnew. unfold handleFileSelect.
    rewrite Hm, Hup. simpl.
    destruct newImages as [|image rest]; [done|]. done.
  - intros m st Hm Hin. unfold handleToggleBatchSelection. simpl.
    split; [done|].
    apply has_spec in Hin. rewrite Hin, Hm.
    by rewrite bool_decide_eq_false_2 by (intros Hne; by apply Hne).
Qed.

(** ** Submitting *)

Lemma activeChanges_nil items :
  (∀ item, item ∈ items → modified item = original item) →
  activeChanges items = [].
Proof.
  unfold activeChanges. induction items as [|item items IH]; intros H; [done|].
  rewrite filter_cons. rewrite decide_False.
  - apply IH. intros i Hi. apply H. by right.
  - intros Hne. apply Hne. symmetry. apply H. by left.
Qed.

(** C5.  A submission with no master, with an empty selection or with no
    active edit does nothing but raise an alert: no adapter is called and
    the session state, with its in-progress flag and its progress map, is
    what it was. *)
Theorem submit_rejected env st :
  masterIndex st = None ∨ batchSelection st = []
  ∨ (∀ item, item ∈ textItems st → modified item = original item) →
  (handleSubmit env st = [Alert selectionAlert]
   ∨ handleSubmit env st = [Alert noChangesAlert])
  ∧ filter (λ e, isRemoteCall e = true) (handleSubmit env st) = []
  ∧ Forall (λ s, isBatchProcessing s = isBatchProcessing st
                 ∧ batchProgress s = batchProgress st)
      (statesAlong (handleSubmit env st) st)
  ∧ run (handleSubmit env st) st = st.
Proof.
  intros Hinvalid.
  assert (handleSubmit env st = [Alert selectionAlert]
          ∨ handleSubmit env st = [Alert noChangesAlert]) as Hcase.
  { unfold handleSubmit.
    destruct (bool_decide (masterIndex st = None)) eqn:Hmaster; simpl; [by left|].
    destruct (batchSelection st) as [|i sel] eqn:Hsel; simpl; [by left|].
    destruct Hinvalid as [Hm | [Hs | Hitems]].
    - apply bool_decide_eq_false in Hmaster. done.
    - done.
    - right. by rewrite (activeChanges_nil _ Hitems). }
  split; [done|].
  destruct Hcase as [-> | ->]; repeat split; by repeat constructor.
Qed.

(** ** The mask builder *)



Lemma find_none {A} (p : A → bool) l :
  List.find p l = None ↔ Forall (λ y, p y = false) l.
Proof.
  induction l as [|y l IH]; simpl; [by split; [constructor|]|].
  destruct (p y) eqn:Hy.
  - split; [done|]. intros H. inversion H; congruence.
  - rewrite IH. split; [by constructor|]. by inversion 1.
Qed.

Lemma find_head_filter {A} (p : A → bool) l :
  List.find p l = head (filter (λ x, p x = true) l).
Proof.
  induction l as [|y l IH]; simpl; [done|].
  rewrite filter_cons. destruct (p y) eqn:Hy.
  - by rewrite decide_True.
  - by rewrite decide_False by congruence.
Qed.

Lemma instructionLine_truthy change :
  truthy (Some (instructionLine change)) = true.
Proof. done. Qed.















(** ** Master analysis *)


(** ** The batch run *)

(** The [try] block, stage by stage. *)
Lemma tryImage_stages env uploaded changes i :
  tryImage env uploaded changes i =
  match uploaded !! i with
  | None => ([], inl (ThrownError (undefinedFileMessage env)))
  | Some image =>
      match mjoin (imageRefs env !! i) with
      | None => ([], inl (ThrownError (elementMissingMessage i)))
      | Some element =>
          match extracted env i with
          | inl err => ([AwaitExtract (file image)], inl err)
          | inr regions =>
              if hasContext2d env i then
                let built := buildMask i element changes regions in
                if built.1.2 then
                  ([AwaitExtract (file image);
                    AwaitEdit (composePrompt built.2) (file image) built.1.1],
                   edited env i)
                else ([AwaitExtract (file image)], inl (ThrownError noMatchMessage))
              else ([AwaitExtract (file image)], inl (ThrownError noContextMessage))
          end
      end
  end.
Proof.
  unfold tryImage.
  destruct (uploaded !! i) as [image|]; [|done].
  destruct (mjoin (imageRefs env !! i)) as [element|]; [|done].
  cbn. destruct (extracted env i) as [err|regions]; [done|].
  destruct (hasContext2d env i); [|done].
  cbn. destruct (buildMask i element changes regions) as [[painted hasMasks] lines].
  destruct hasMasks; [|done].
  cbn. by destruct (edited env i).
Qed.

Lemma tryImage_only_awaits env uploaded changes i :
  Forall (λ e, isRemoteCall e = true) (tryImage env uploaded changes i).1.
Proof.
  rewrite tryImage_stages.
  destruct (uploaded !! i); [|by constructor].
  destruct (mjoin _); [|by constructor].
  destruct (extracted env i); [by repeat constructor|].
  destruct (hasContext2d env i); [|by repeat constructor].
  cbn. destruct (buildMask _ _ _ _).1.2; by repeat constructor.
Qed.

Lemma processImage_shape env uploaded changes i :
  processImage env uploaded changes i
  = (tryImage env uploaded changes i).1
    ++ [UpdateBatchProgress i (imageOutcome env uploaded changes i)].
Proof.
  unfold processImage, imageOutcome.
  by destruct (tryImage env uploaded changes i).
Qed.



Lemma run_app es1 es2 st : run (es1 ++ es2) st = run es2 (run es1 st).
Proof. unfold run. apply foldl_app. Qed.

Lemma statesAlong_app es1 es2 st :
  statesAlong (es1 ++ es2) st = statesAlong es1 st ++ statesAlong es2 (run es1 st).
Proof.
  revert st. induction es1 as [|e es1 IH]; intros st; [done|].
  simpl. by rewrite IH.
Qed.










(** The shape of an accepted submission. *)
Lemma handleSubmit_accepted env st :
  masterIndex st ≠ None →
  batchSelection st ≠ [] →
  activeChanges (textItems st) ≠ [] →
  handleSubmit env st
  = SetIsBatchProcessing true
    :: SetBatchProgress (initialProgress (batchSelection st))
    :: concat (map (processImage env (uploadedImages st)
                      (activeChanges (textItems st))) (batchSelection st))
    ++ [SetIsBatchProcessing false].
Proof.
  intros Hmaster Hselection Hchanges. unfold handleSubmit.
  rewrite bool_decide_eq_false_2 by done.
  destruct (batchSelection st); [done|].
  by destruct (activeChanges (textItems st)).
Qed.







Lemma readEditResponse_without_image response :
  firstInlineData (responseParts response) = None →
  ∃ message,
    readEditResponse response = inl (ThrownError message)
    ∧ (message = noImageMessage
       ∨ ∃ reason, firstCandidate response ≫= finishReason = Some reason
                   ∧ message = blockedMessage reason).
Proof.
  intros Hnone. unfold readEditResponse. rewrite Hnone. cbn zeta.
  destruct (firstCandidate response ≫= finishReason) as [reason|].
  - destruct (truthy (Some reason) && _); eexists; (split; [done|]).
    + right. by exists reason.
    + by left.
  - eexists. split; [done|]. by left.
Qed.



(** ** The properties on the sample session *)

Lemma sampleState_reachable : reachable sampleState.
Proof. unfold sampleState. repeat apply reachable_handle. apply reachable_initial. Qed.

Lemma sampleState_accepted :
  masterIndex sampleState ≠ None
  ∧ batchSelection sampleState ≠ []
  ∧ NoDup (batchSelection sampleState)
  ∧ activeChanges (textItems sampleState) ≠ [].
Proof.
  split; [done|]. split; [done|]. split; [|done].
  apply reachable_NoDup, sampleState_reachable.
Qed.



Lemma submit_rejected_witness :
  (∀ item, item ∈ textItems (handle (TextChanged 0 "SALE") sampleState) →
           modified item = original item)
  ∧ handleSubmit sampleEnv (handle (TextChanged 0 "SALE") sampleState)
    = [Alert noChangesAlert].
Proof.
  assert (∀ item, item ∈ textItems (handle (TextChanged 0 "SALE") sampleState) →
                  modified item = original item) as Hunchanged.
  { intros item Hitem. vm_compute in Hitem.
    apply elem_of_cons in Hitem as [->|Hitem]; [done|].
    apply elem_of_cons in Hitem as [->|Hitem]; [done|].
    by apply elem_of_nil in Hitem. }
  split; [done|].
  destruct (submit_rejected sampleEnv (handle (TextChanged 0 "SALE") sampleState)
              (or_intror (or_intror Hunchanged)))
    as ([Hselection | Hchanges] & _); [|done].
  exfalso. vm_compute in Hselection. discriminate.
Defined.




(** * Further properties *)

(** ** Image generation *)




(** ** The generator form *)

Lemma trimStartBytes_all_white l :
  Forall (λ a, JsString.ws1 a = true) l → JsString.trimStartBytes l = [].
Proof.
  unfold JsString.trimStartBytes.
  induction 1 as [|a l Ha _ IH]; [done|].
  simpl. by rewrite Ha.
Qed.

Lemma trim_all_white s :
  Forall (λ a, JsString.ws1 a = true) (list_ascii_of_string s) →
  JsString.trim s = "".
Proof. intros H. unfold JsString.trim. by rewrite (trimStartBytes_all_white _ H). Qed.

(** X2: a prompt of nothing but spaces, tabs and line breaks (the empty
    prompt among them) is turned down: the error is set, [generateImage]
    is not awaited, and the images on show and the loading flag stay as
    they were. *)
Theorem generator_blank_prompt generated st :
  Forall (λ a, JsString.ws1 a = true) (list_ascii_of_string (Generator.prompt st)) →
  Generator.handleSubmit generated st
  = [Generator.SetError (Some "Please enter a prompt.")]
  ∧ Generator.generatedImages (Generator.run (Generator.handleSubmit generated st) st)
    = Generator.generatedImages st
  ∧ Generator.isLoading (Generator.run (Generator.handleSubmit generated st) st)
    = Generator.isLoading st.
Proof.
  intros Hblank. unfold Generator.handleSubmit.
  by rewrite (trim_all_white _ Hblank).
Qed.

(** X3: a submission that is taken awaits [generateImage] once, with the
    prompt as typed and the chosen ratio.  The loading flag is up in every
    state of the run but the last, where it is down.  On success the
    images are the ones returned and no error is left from before; on
    failure the error is the exception's message and no image is left
    from before. *)
Theorem generator_submission generated st :
  JsString.trim (Generator.prompt st) ≠ "" →
  let effects := Generator.handleSubmit generated st in
  let final := Generator.run effects st in
  omap (λ e, match e with
             | Generator.AwaitGenerate p r => Some (p, r)
             | _ => None
             end) effects
  = [(Generator.prompt st, Generator.ratioText (Generator.aspectRatio st))]
  ∧ (∃ during,
       Generator.statesAlong effects st = during ++ [final]
       ∧ Forall (λ s, Generator.isLoading s = true) during)
  ∧ Generator.isLoading final = false
  ∧ (∀ images, generated = inr images →
       Generator.generatedImages final = images ∧ Generator.error final = None)
  ∧ (∀ err, generated = inl err →
       Generator.generatedImages final = []
       ∧ Generator.error final
         = Some (messageOr "An unknown error occurred." err)).
Proof.
  intros Hprompt effects final. subst final effects.
  unfold Generator.handleSubmit.
  rewrite (eqb_string_false _ _ Hprompt).
  destruct generated as [err|images]; cbn.
  - split; [done|]. split.
    + eexists [_; _; _; _; _]. split; [done|]. by repeat constructor.
    + split; [done|]. split; [done|]. by intros ? [= <-].
  - split; [done|]. split.
    + eexists [_; _; _; _; _]. split; [done|]. by repeat constructor.
    + split; [done|]. split; [|done]. by intros ? [= <-].
Qed.

Lemma mapThrowing_jpegOf undefinedRead payloads :
  mapThrowing (jpegUrl undefinedRead) (map jpegOf payloads)
  = inr (map (λ payload, "data:image/jpeg;base64," +:+ payload) payloads).
Proof.
  induction payloads as [|payload payloads IH]; [done|].
  cbn [map mapThrowing]. by rewrite IH.
Qed.

(** X4: the form and the adapter together.  For a prompt that is not
    blank: without an API key nothing is sent and the form ends with the
    key's error and no image; with it, one request is sent, and when the
    service answers with images the form shows one JPEG data URL per
    image, in order, with no error. *)
Theorem generator_end_to_end remote undefinedRead st :
  JsString.trim (Generator.prompt st) ≠ "" →
  let generate API_KEY :=
    generateImage API_KEY remote undefinedRead (Generator.prompt st)
      (Generator.ratioText (Generator.aspectRatio st)) in
  let final API_KEY :=
    Generator.run (Generator.handleSubmit (generate API_KEY).2 st) st in
  ((generate false).1 = []
   ∧ Generator.error (final false) = Some "API_KEY is not available."
   ∧ Generator.generatedImages (final false) = []
   ∧ Generator.isLoading (final false) = false)
  ∧ (generate true).1
    = [imagesRequest (Generator.prompt st)
         (Generator.ratioText (Generator.aspectRatio st))]
  ∧ (∀ payloads,
       remote (imagesRequest (Generator.prompt st)
                 (Generator.ratioText (Generator.aspectRatio st)))
       = inr {| generatedImages := Some (map jpegOf payloads) |} →
       Generator.generatedImages (final true)
       = map (λ payload, "data:image/jpeg;base64," +:+ payload) payloads
       ∧ Generator.error (final true) = None
       ∧ Generator.isLoading (final true) = false).
Proof.
  intros Hprompt generate final. subst final generate. cbn beta.
  unfold Generator.handleSubmit. rewrite (eqb_string_false _ _ Hprompt).
  split; [done|]. split.
  - unfold generateImage. destruct (remote _) as [err|response]; [done|].
    by destruct (generatedImages response).
  - intros payloads Hremote. unfold generateImage. rewrite Hremote.
    cbn [generatedImages snd]. by rewrite mapThrowing_jpegOf.
Qed.

(** ** The upload component *)

(** X5: the upload component hands [onFilesSelect] a list only when there
    is one and it is not empty, and then hands it over whole, once; a drop
    always ends with the dragging highlight off; a drag event sets the
    highlight by its type alone. *)
Theorem upload_passes_files_on :
  (∀ files fs,
     fs ∈ Upload.selections (Upload.handleDrop files)
     ∨ fs ∈ Upload.selections (Upload.handleChange files) →
     fs ≠ [] ∧ files = Some fs)
  ∧ (∀ fs, fs ≠ [] →
       Upload.selections (Upload.handleDrop (Some fs)) = [fs]
       ∧ Upload.selections (Upload.handleChange (Some fs)) = [fs])
  ∧ (∀ files before, Upload.dragging (Upload.handleDrop files) before = false)
  ∧ (∀ before,
       Upload.dragging (Upload.handleDrag "dragenter") before = true
       ∧ Upload.dragging (Upload.handleDrag "dragover") before = true
       ∧ Upload.dragging (Upload.handleDrag "dragleave") before = false).
Proof.
  split; [|split; [|split]].
  - intros [[|f rest]|] fs; cbn; intros [H|H];
      try (by apply elem_of_nil in H).
    + apply list_elem_of_singleton in H as ->. done.
    + apply list_elem_of_singleton in H as ->. done.
  - by intros [|f rest] Hfs.
  - by intros [[|f rest]|] before.
  - done.
Qed.

(** ** Sessions as the page offers them *)

Lemma reachableUI_reachable st : reachableUI st → reachable st.
Proof. induction 1; by constructor. Qed.


Lemma analyzeMasterImage_textItems extracted st :
  textItems (run (analyzeMasterImage extracted st) st) = textItems st
  ∨ textItems (run (analyzeMasterImage extracted st) st) = []
  ∨ ∃ regions, is_Some (masterIndex st)
               ∧ textItems (run (analyzeMasterImage extracted st) st)
                 = toTextItems regions.
Proof.
  unfold analyzeMasterImage.
  destruct (masterIndex st) as [m|] eqn:Hm; [|by left].
  simpl. destruct (uploadedImages st !! m); [|by left].
  destruct extracted as [err|regions]; [right; by left|].
  right. right. exists regions. by split.
Qed.

Lemma batch_effects_frame effects st :
  Forall (λ e, isBatchEffect e = true) effects →
  textItems (run effects st) = textItems st
  ∧ isAnalyzing (run effects st) = isAnalyzing st
  ∧ analysisError (run effects st) = analysisError st.
Proof.
  intros H. revert st. induction H as [|e effects He _ IH]; intros st; [done|].
  unfold run in *. simpl. destruct (IH (apply st e)) as (-> & -> & ->).
  by destruct e.
Qed.

Lemma processImage_batch_effects env uploaded changes i :
  Forall (λ e, isBatchEffect e = true) (processImage env uploaded changes i).
Proof.
  rewrite processImage_shape. apply Forall_app. split; [|by repeat constructor].
  eapply Forall_impl; [apply tryImage_only_awaits|]. by intros [].
Qed.

Lemma handleSubmit_batch_effects env st :
  Forall (λ e, isBatchEffect e = true) (handleSubmit env st).
Proof.
  unfold handleSubmit.
  destruct (_ || _); [by repeat constructor|].
  destruct (_ =? _)%nat; [by repeat constructor|].
  apply Forall_app. split; [by repeat constructor|].
  apply Forall_app. split; [|by repeat constructor].
  apply Forall_concat, Forall_forall. intros es (i & -> & _)%list_elem_of_fmap.
  apply processImage_batch_effects.
Qed.

Lemma toTextItems_ids regions i item :
  toTextItems regions !! i = Some item →
  id item = i ∧ modified item = original item
  ∧ ∃ region, regions !! i = Some region ∧ original item = text region
              ∧ itemBox item = boundingBox region.
Proof.
  unfold toTextItems. rewrite list_lookup_imap.
  destruct (regions !! i) as [region|]; [|done].
  intros [= <-]. repeat split. by exists region.
Qed.

(** In every session state the items of the edit list carry their place
    in the list as [id]. *)
Lemma reachable_item_ids st :
  reachable st → ∀ i item, textItems st !! i = Some item → id item = i.
Proof.
  induction 1 as [|ev st _ IH]; [done|]. intros i item.
  destruct ev; simpl; try by apply IH.
  - unfold handleFileSelect. destruct (_ && _); simpl; apply IH.
  - rewrite list_lookup_fmap.
    destruct (textItems st !! i) as [x|] eqn:Hx; [|done].
    simpl. intros [= <-]. specialize (IH i x Hx).
    by case_bool_decide.
  - destruct (analyzeMasterImage_textItems extractedText st)
      as [-> | [-> | (regions & _ & ->)]]; [apply IH|done|].
    by intros [? _]%toTextItems_ids.
  - destruct (batch_effects_frame _ st (handleSubmit_batch_effects env st))
      as (-> & _ & _). apply IH.
Qed.

Lemma reachable_master_in_selection st :
  reachable st → ∀ m, masterIndex st = Some m → m ∈ batchSelection st.
Proof.
  induction 1 as [|ev st _ IH]; [done|]. intros m.
  destruct ev; simpl.
  - unfold handleFileSelect. destruct (_ && _); simpl; [|by apply IH].
    intros [= <-]. by apply list_elem_of_singleton.
  - intros [= <-]. destruct (has index _) eqn:H; simpl.
    + by apply has_spec.
    + apply elem_of_add. by left.
  - intros Hm. specialize (IH m Hm). destruct (has index _) eqn:H.
    + case_bool_decide as Hne; [|done].
      apply elem_of_delete. split; [|done]. congruence.
    + apply elem_of_add. by right.
  - apply IH.
  - destruct (run_keeps_selection (analyzeMasterImage extractedText st) st)
      as (-> & -> & _). apply IH.
  - destruct (run_keeps_selection (handleSubmit env st) st) as (-> & -> & _).
    apply IH.
Qed.

Lemma reachableUI_indicesInRange st : reachableUI st → indicesInRange st.
Proof.
  induction 1 as [|ev st _ (Hsel & Hmaster & Hnone & Hitems) Hoffered].
  { repeat split; try done. intros i Hi. by apply elem_of_nil in Hi. }
  destruct ev; simpl in Hoffered |- *.
  - destruct Hoffered as [Hclosure Hnonempty].
    unfold indicesInRange, handleFileSelect.
    destruct (bool_decide (closureMaster = None) && _) eqn:Hfirst; simpl.
    + apply andb_true_iff in Hfirst as [_ Hlen%Nat.ltb_lt].
      repeat split.
      * by intros i ->%list_elem_of_singleton.
      * by intros m [= <-].
      * done.
      * by eexists.
    + rewrite length_app. repeat split.
      * intros i Hi%Hsel. lia.
      * intros m Hm%Hmaster. lia.
      * intros Hm. specialize (Hclosure Hm). subst closureMaster.
        rewrite (Hnone Hm) in *. specialize (Hnonempty eq_refl).
        destruct newImages; [done|]. done.
      * done.
  - repeat split; simpl.
    + intros i. destruct (negb _); [|by apply Hsel].
      intros [->|Hi]%elem_of_add; [done|by apply Hsel].
    + by intros m [= <-].
    + done.
    + by eexists.
  - repeat split; simpl; try done.
    intros i. destruct (has index _).
    + case_bool_decide; [|by apply Hsel].
      intros [_ Hi]%elem_of_delete. by apply Hsel.
    + intros [->|Hi]%elem_of_add; [done|by apply Hsel].
  - repeat split; simpl; try done.
    intros Hne. apply Hitems. intros Hnil. apply Hne. by rewrite Hnil.
  - destruct (run_keeps_selection (analyzeMasterImage extractedText st) st)
      as (Hm & Hs & Hu).
    unfold indicesInRange. rewrite Hm, Hs, Hu. repeat split; try done.
    destruct (analyzeMasterImage_textItems extractedText st)
      as [-> | [-> | (regions & Hsome & _)]]; done.
  - destruct (run_keeps_selection (handleSubmit env st) st) as (Hm & Hs & Hu).
    destruct (batch_effects_frame _ st (handleSubmit_batch_effects env st))
      as (Ht & _ & _).
    unfold indicesInRange. by rewrite Hm, Hs, Hu, Ht.
Qed.

(** X6: in every state the page can be in, each selected index and the
    master index name an uploaded image, the master is selected, there is
    a master exactly when something has been uploaded, and the selection
    is then not empty. *)
Theorem ui_indices_name_images st :
  reachableUI st →
  (∀ i, i ∈ batchSelection st → ∃ image, uploadedImages st !! i = Some image)
  ∧ (∀ m, masterIndex st = Some m →
       m ∈ batchSelection st ∧ ∃ image, uploadedImages st !! m = Some image)
  ∧ (masterIndex st = None ↔ uploadedImages st = [])
  ∧ (uploadedImages st ≠ [] → batchSelection st ≠ []).
Proof.
  intros Hst.
  destruct (reachableUI_indicesInRange st Hst) as (Hsel & Hmaster & Hnone & _).
  pose proof (reachable_master_in_selection st (reachableUI_reachable st Hst))
    as Hin.
  split; [|split; [|split]].
  - intros i Hi%Hsel. by apply lookup_lt_is_Some_2.
  - intros m Hm. split; [by apply Hin|].
    apply lookup_lt_is_Some_2. by apply Hmaster.
  - split; [done|]. intros Hempty.
    destruct (masterIndex st) as [m|] eqn:Hm; [|done].
    specialize (Hmaster m eq_refl). rewrite Hempty in Hmaster. simpl in Hmaster. lia.
  - intros Himages Hempty.
    destruct (masterIndex st) as [m|] eqn:Hm.
    + specialize (Hin m eq_refl). rewrite Hempty in Hin. by apply elem_of_nil in Hin.
    + by apply Himages, Hnone.
Qed.


(** X8: when the form is on the page (the edit list is not empty), a
    submission is never turned down for want of a master or a selection:
    it is turned down exactly when no edit is active.  Every selected
    index then has its uploaded file, so no turn of the run ends on the
    read of a missing upload, and a turn whose image element is mounted
    starts by awaiting the extraction for that very file. *)
Theorem ui_submit_needs_only_changes env st :
  reachableUI st →
  textItems st ≠ [] →
  handleSubmit env st ≠ [Alert selectionAlert]
  ∧ (handleSubmit env st = [Alert noChangesAlert]
     ↔ activeChanges (textItems st) = [])
  ∧ (∀ i, i ∈ batchSelection st →
       ∃ image,
         uploadedImages st !! i = Some image
         ∧ ∀ changes element,
             imageRefs env !! i = Some (Some element) →
             head (tryImage env (uploadedImages st) changes i).1
             = Some (AwaitExtract (file image))).
Proof.
  intros Hst Hitems.
  destruct (reachableUI_indicesInRange st Hst) as (Hsel & _ & _ & Hsome).
  pose proof (reachable_master_in_selection st (reachableUI_reachable st Hst))
    as Hin.
  destruct (Hsome Hitems) as [m Hm]. specialize (Hin m Hm).
  assert (batchSelection st ≠ []) as Hne.
  { intros Hnil. rewrite Hnil in Hin. by apply elem_of_nil in Hin. }
  assert (masterIndex st ≠ None) as Hmaster by (by rewrite Hm).
  split; [|split].
  - destruct (activeChanges (textItems st)) as [|c cs] eqn:Hchanges.
    + unfold handleSubmit. rewrite bool_decide_eq_false_2 by done.
      destruct (batchSelection st); [done|]. by rewrite Hchanges.
    + rewrite handleSubmit_accepted by (done || by rewrite Hchanges). done.
  - split.
    + intros Halert. destruct (activeChanges (textItems st)) as [|c cs] eqn:Hc; [done|].
      rewrite handleSubmit_accepted in Halert by (done || by rewrite Hc). done.
    + intros Hnone. unfold handleSubmit. rewrite bool_decide_eq_false_2 by done.
      destruct (batchSelection st); [done|]. by rewrite Hnone.
  - intros i Hi%Hsel.
    destruct (lookup_lt_is_Some_2 _ _ Hi) as [image Himage].
    exists image. split; [done|]. intros changes element Helement.
    rewrite tryImage_stages, Himage, Helement. cbn [mjoin option_join].
    destruct (extracted env i); [done|].
    destruct (hasContext2d env i); [|done].
    cbn zeta. by destruct (buildMask _ _ _ _).1.2.
Qed.

(** ** Editing the list *)

Lemma map_by_id_alter (f : TextItem → TextItem) ident (items : list TextItem) :
  (∀ i item, items !! i = Some item → id item = i) →
  map (λ item, if bool_decide (id item = ident) then f item else item) items
  = alter f ident items.
Proof.
  intros Hids. apply list_eq. intros i.
  change (map ?g items) with (g <$> items). rewrite list_lookup_fmap.
  destruct (decide (ident = i)) as [<-|Hne].
  - rewrite list_lookup_alter_eq.
    destruct (items !! ident) as [item|] eqn:Hitem; [|done]. simpl.
    by rewrite bool_decide_eq_true_2 by (by apply Hids).
  - rewrite list_lookup_alter_ne by done.
    destruct (items !! i) as [item|] eqn:Hitem; [|done]. simpl.
    rewrite bool_decide_eq_false_2; [done|].
    intros Heq. apply Hne. rewrite <- Heq. by apply Hids.
Qed.

(** X9: an edit of the text with a given [id] rewrites the [modified] text
    of the item at that place in the list and nothing else: the list keeps
    its length, every item keeps its [id], [original] and box, and the
    rest of the session is untouched.  An [id] beyond the list changes
    nothing. *)
Theorem text_change_hits_one_item ident newText st :
  reachable st →
  let st' := handleTextChange ident newText st in
  textItems st' = alter (withModified newText) ident (textItems st)
  ∧ map id (textItems st') = map id (textItems st)
  ∧ map original (textItems st') = map original (textItems st)
  ∧ map itemBox (textItems st') = map itemBox (textItems st)
  ∧ (∀ item, textItems st !! ident = Some item →
       textItems st' !! ident = Some (withModified newText item))
  ∧ (∀ j, j ≠ ident → textItems st' !! j = textItems st !! j)
  ∧ ((length (textItems st) ≤ ident)%nat → textItems st' = textItems st)
  ∧ (uploadedImages st', masterIndex st', batchSelection st', batchProgress st')
    = (uploadedImages st, masterIndex st, batchSelection st, batchProgress st).
Proof.
  intros Hst st'.
  assert (textItems st' = alter (withModified newText) ident (textItems st)) as Halter.
  { subst st'. simpl. apply (map_by_id_alter (withModified newText)).
    by apply reachable_item_ids. }
  split; [done|]. rewrite Halter.
  assert (∀ {B} (f : TextItem → B),
            (∀ item, f (withModified newText item) = f item) →
            map f (alter (withModified newText) ident (textItems st))
            = map f (textItems st)) as Hkeeps.
  { intros B f Hf. apply list_eq. intros j.
    change (map f ?l) with (f <$> l). rewrite !list_lookup_fmap.
    destruct (decide (ident = j)) as [<-|Hne].
    - rewrite list_lookup_alter_eq. destruct (textItems st !! ident); [|done].
      simpl. by rewrite Hf.
    - by rewrite list_lookup_alter_ne. }
  split; [by apply Hkeeps|]. split; [by apply Hkeeps|]. split; [by apply Hkeeps|].
  split; [|split; [|split]].
  - intros item Hitem. by rewrite list_lookup_alter_eq, Hitem.
  - intros j Hne. by rewrite list_lookup_alter_ne.
  - intros Hlen. apply list_eq. intros j.
    destruct (decide (ident = j)) as [<-|Hne].
    + rewrite list_lookup_alter_eq. by rewrite (lookup_ge_None_2 _ _ Hlen).
    + by rewrite list_lookup_alter_ne.
  - done.
Qed.

Lemma elem_of_activeChanges item items :
  item ∈ activeChanges items ↔ original item ≠ modified item ∧ item ∈ items.
Proof. unfold activeChanges. by rewrite list_elem_of_filter. Qed.

(** X10: after an edit of item [i] the item is active exactly when the new
    text differs from its original, so typing the original back withdraws
    the change; whether any other item is active is not affected. *)
Theorem text_change_activity i item newText st :
  reachable st →
  textItems st !! i = Some item →
  let st' := handleTextChange i newText st in
  (withModified newText item ∈ activeChanges (textItems st')
   ↔ newText ≠ original item)
  ∧ (∀ x, x ∈ activeChanges (textItems st') → id x = i →
       x = withModified newText item)
  ∧ (∀ x, id x ≠ i →
       x ∈ activeChanges (textItems st') ↔ x ∈ activeChanges (textItems st))
  ∧ (∀ x, x ∈ activeChanges (textItems (handleTextChange i (original item) st)) →
       id x ≠ i).
Proof.
  intros Hst Hitem st'. subst st'.
  pose proof (reachable_item_ids st Hst) as Hids.
  assert (∀ t x, x ∈ textItems (handleTextChange i t st)
                 ↔ (x = withModified t item ∨ (x ∈ textItems st ∧ id x ≠ i)))
    as Hmem.
  { intros t x. simpl. rewrite (map_by_id_alter (withModified t)) by done.
    rewrite !list_elem_of_lookup. split.
    - intros [j Hj]. destruct (decide (i = j)) as [<-|Hne].
      + rewrite list_lookup_alter_eq, Hitem in Hj. left. by injection Hj.
      + rewrite list_lookup_alter_ne in Hj by done. right.
        split; [by exists j|]. rewrite (Hids j x Hj). congruence.
    - intros [->|[[j Hj] Hne]].
      + exists i. by rewrite list_lookup_alter_eq, Hitem.
      + exists j. rewrite list_lookup_alter_ne; [done|].
        intros ->. by rewrite (Hids j x Hj) in Hne. }
  assert (id (withModified newText item) = i) as Hid by (simpl; by apply Hids).
  split; [|split; [|split]].
  - rewrite elem_of_activeChanges, Hmem. simpl. split.
    + intros [Hne _]. congruence.
    + intros Hne. split; [congruence|by left].
  - intros x [_ [->|[_ Hne]]%Hmem]%elem_of_activeChanges Hx; done.
  - intros x Hx. rewrite !elem_of_activeChanges, Hmem. split.
    + intros [Hne [->|[Hin _]]]; [done|done].
    + intros [Hne Hin]. split; [done|]. by right.
  - intros x [Hne [->|[_ Hx]]%Hmem]%elem_of_activeChanges; [|done].
    by destruct Hne.
Qed.



(** ** The calls of a batch run *)







Lemma remote_calls_of_turn env uploaded changes i :
  filter (λ e, isRemoteCall e = true) (processImage env uploaded changes i)
  = (tryImage env uploaded changes i).1.
Proof.
  rewrite processImage_shape, filter_app.
  cbn. rewrite app_nil_r.
  induction (tryImage_only_awaits env uploaded changes i) as [|e es He _ IH];
    [done|].
  rewrite filter_cons, decide_True by done. by rewrite IH.
Qed.

Lemma remote_calls_of_turns env uploaded changes selection :
  filter (λ e, isRemoteCall e = true)
    (concat (map (processImage env uploaded changes) selection))
  = concat (map (λ i, (tryImage env uploaded changes i).1) selection).
Proof.
  induction selection as [|i selection IH]; [done|].
  cbn. by rewrite filter_app, remote_calls_of_turn, IH.
Qed.

Lemma turn_calls_at_most_two env uploaded changes i :
  (length (tryImage env uploaded changes i).1 ≤ 2)%nat.
Proof.
  rewrite tryImage_stages.
  destruct (uploaded !! i); [|simpl; lia].
  destruct (mjoin _); [|simpl; lia].
  destruct (extracted env i); [simpl; lia|].
  destruct (hasContext2d env i); [|simpl; lia].
  cbn zeta. destruct (buildMask _ _ _ _).1.2; simpl; lia.
Qed.

(** X13: the adapter calls of a run are those of its turns, one turn after
    the other in the order of the selection (nothing is awaited side by
    side), and there are at most two for each selected image. *)
Theorem batch_calls_turn_by_turn env st :
  let calls := filter (λ e, isRemoteCall e = true) (handleSubmit env st) in
  (calls = []
   ∨ calls = concat (map (λ i, (tryImage env (uploadedImages st)
                                  (activeChanges (textItems st)) i).1)
                         (batchSelection st)))
  ∧ (length calls ≤ 2 * length (batchSelection st))%nat.
Proof.
  intros calls.
  assert (length (concat (map (λ i, (tryImage env (uploadedImages st)
                                        (activeChanges (textItems st)) i).1)
                               (batchSelection st)))
          ≤ 2 * length (batchSelection st))%nat as Hbound.
  { induction (batchSelection st) as [|i selection IH]; [done|].
    cbn [map concat]. rewrite length_app.
    pose proof (turn_calls_at_most_two env (uploadedImages st)
                  (activeChanges (textItems st)) i). simpl. lia. }
  subst calls. unfold handleSubmit.
  destruct (_ || _); [split; [by left|simpl; lia]|].
  destruct (_ =? _)%nat; [split; [by left|simpl; lia]|].
  cbn [app]. rewrite !filter_cons, !decide_False by done.
  rewrite filter_app, remote_calls_of_turns. cbn. rewrite app_nil_r.
  split; [by right|done].
Qed.

Lemma flag_kept_along effects st :
  Forall (λ e, match e with SetIsBatchProcessing _ => False | _ => True end) effects →
  Forall (λ s, isBatchProcessing s = isBatchProcessing st) (statesAlong effects st).
Proof.
  intros H. revert st. induction H as [|e effects He _ IH]; intros st; [constructor|].
  simpl. assert (isBatchProcessing (apply st e) = isBatchProcessing st) as Hsame.
  { by destruct e. }
  constructor; [done|]. rewrite <- Hsame. apply IH.
Qed.

Lemma turns_keep_flag env uploaded changes selection :
  Forall (λ e, match e with SetIsBatchProcessing _ => False | _ => True end)
    (concat (map (processImage env uploaded changes) selection)).
Proof.
  apply Forall_concat, Forall_forall. intros es (i & -> & _)%list_elem_of_fmap.
  rewrite processImage_shape. apply Forall_app. split; [|by repeat constructor].
  eapply Forall_impl; [apply tryImage_only_awaits|]. by intros [].
Qed.

(** X14: while an accepted run lasts, the in-progress flag is up in every
    state but the last.  The run changes nothing of the session but the
    progress map (and the flag, down again at the end): images, master,
    selection, edit list and analysis state are what they were, so the
    same submission made again runs the same changes over the same
    images. *)
Theorem batch_run_frame env st :
  masterIndex st ≠ None →
  batchSelection st ≠ [] →
  activeChanges (textItems st) ≠ [] →
  let effects := handleSubmit env st in
  let final := run effects st in
  (∃ during, statesAlong effects st = during ++ [final]
             ∧ Forall (λ s, isBatchProcessing s = true) during)
  ∧ isBatchProcessing final = false
  ∧ (uploadedImages final, masterIndex final, batchSelection final)
    = (uploadedImages st, masterIndex st, batchSelection st)
  ∧ (textItems final, isAnalyzing final, analysisError final)
    = (textItems st, isAnalyzing st, analysisError st)
  ∧ (∀ env', handleSubmit env' final = handleSubmit env' st).
Proof.
  intros Hmaster Hselection Hchanges effects final.
  destruct (run_keeps_selection effects st) as (Hm & Hs & Hu).
  destruct (batch_effects_frame effects st (handleSubmit_batch_effects env st))
    as (Ht & Ha & He).
  fold final in Hm, Hs, Hu, Ht, Ha, He.
  assert (effects
          = [SetIsBatchProcessing true;
             SetBatchProgress (initialProgress (batchSelection st))]
            ++ concat (map (processImage env (uploadedImages st)
                              (activeChanges (textItems st))) (batchSelection st))
            ++ [SetIsBatchProcessing false]) as Heffects.
  { subst effects. by rewrite handleSubmit_accepted. }
  split; [|split; [|split; [|split]]].
  - subst final. rewrite Heffects.
    rewrite app_assoc, run_app, statesAlong_app. eexists. split; [reflexivity|].
    rewrite statesAlong_app. apply Forall_app. split; [by repeat constructor|].
    eapply Forall_impl; [apply flag_kept_along, turns_keep_flag|].
    by intros s ->.
  - subst final. rewrite Heffects, app_assoc, run_app. done.
  - by rewrite Hm, Hs, Hu.
  - by rewrite Ht, Ha, He.
  - intros env'. unfold handleSubmit. by rewrite Hm, Hs, Hu, Ht.
Qed.

(** ** Selecting *)

(** X15: toggling an index that is not the master twice gives back the
    selection it started from, as a set (a re-added index goes to the end
    of the order); the first toggle flips the membership of that index and
    of no other. *)
Theorem toggle_twice index st :
  masterIndex st ≠ Some index →
  let once := handleToggleBatchSelection index st in
  let twice := handleToggleBatchSelection index once in
  (index ∈ batchSelection once ↔ index ∉ batchSelection st)
  ∧ (∀ j, j ≠ index → (j ∈ batchSelection once ↔ j ∈ batchSelection st))
  ∧ (∀ j, j ∈ batchSelection twice ↔ j ∈ batchSelection st)
  ∧ masterIndex twice = masterIndex st.
Proof.
  intros Hmaster once twice.
  assert (∀ s, masterIndex s ≠ Some index →
            ∀ j, j ∈ batchSelection (handleToggleBatchSelection index s)
                 ↔ (if decide (j = index) then j ∉ batchSelection s
                    else j ∈ batchSelection s)) as Hflip.
  { intros s Hs j. simpl. destruct (has index (batchSelection s)) eqn:Hhas.
    - apply has_spec in Hhas.
      rewrite bool_decide_eq_true_2 by congruence.
      rewrite elem_of_delete. destruct (decide (j = index)) as [->|]; tauto.
    - assert (index ∉ batchSelection s) as Hnot.
      { intros Hin%has_spec. congruence. }
      rewrite elem_of_add. destruct (decide (j = index)) as [->|]; tauto. }
  split; [|split; [|split]].
  - subst once. rewrite Hflip by done. by rewrite decide_True.
  - intros j Hne. subst once. rewrite Hflip by done. by rewrite decide_False.
  - intros j. subst twice once. rewrite Hflip by done.
    destruct (decide (j = index)) as [->|Hne].
    + rewrite Hflip by done. rewrite decide_True by done.
      destruct (decide (index ∈ batchSelection st)); tauto.
    + rewrite Hflip by done. by rewrite decide_False.
  - done.
Qed.

(** X16: choosing a new master drops nothing from the selection and adds at
    most the new master; the old master stays selected but is no longer
    held there: a toggle now takes it out, and the new master stays. *)
Theorem old_master_can_be_deselected old new st :
  masterIndex st = Some old →
  old ∈ batchSelection st →
  new ≠ old →
  let chosen := handleSelectMaster new st in
  let after := handleToggleBatchSelection old chosen in
  (∀ j, j ∈ batchSelection chosen ↔ j = new ∨ j ∈ batchSelection st)
  ∧ old ∈ batchSelection chosen
  ∧ (old ∉ batchSelection after)
  ∧ new ∈ batchSelection after
  ∧ masterIndex after = Some new.
Proof.
  intros Hold Hin Hne chosen after.
  assert (∀ j, j ∈ batchSelection chosen ↔ j = new ∨ j ∈ batchSelection st) as Hchosen.
  { intros j. subst chosen. simpl. destruct (has new (batchSelection st)) eqn:Hhas; simpl.
    - apply has_spec in Hhas. split; [tauto|]. by intros [->|].
    - apply elem_of_add. }
  split; [done|]. split; [apply Hchosen; by right|].
  assert (has old (batchSelection chosen) = true) as Hhas.
  { apply has_spec, Hchosen. by right. }
  subst after. unfold handleToggleBatchSelection. cbn [batchSelection masterIndex].
  rewrite Hhas. change (masterIndex chosen) with (Some new).
  rewrite bool_decide_eq_true_2 by congruence.
  split; [|split; [|done]].
  - rewrite elem_of_delete. tauto.
  - rewrite elem_of_delete. split; [done|]. apply Hchosen. by left.
Qed.


(** ** Matching and white space *)

Lemma strip_fixed drop fuel l : drop l = None → JsString.strip drop fuel l = l.
Proof. intros H. destruct fuel; simpl; by rewrite ?H. Qed.

Lemma dropWsFront_cut l l' :
  JsString.dropWsFront l = Some l' → ∃ k, l = k ++ l'.
Proof.
  unfold JsString.dropWsFront. intros H.
  repeat case_match; simplify_eq.
  - by eexists [_].
  - by eexists [_; _].
  - by eexists [_; _; _].
Qed.

Lemma dropWsBack_cut l l' :
  JsString.dropWsBack l = Some l' → ∃ k, l = k ++ l'.
Proof.
  unfold JsString.dropWsBack. intros H.
  repeat case_match; simplify_eq.
  - by eexists [_].
  - by eexists [_; _].
  - by eexists [_; _; _].
Qed.

Lemma strip_cut drop fuel l :
  (∀ k k', drop k = Some k' → ∃ cut, k = cut ++ k') →
  ∃ cut, l = cut ++ JsString.strip drop fuel l.
Proof.
  intros Hcut. revert l. induction fuel as [|fuel IH]; intros l; simpl.
  - by exists [].
  - destruct (drop l) as [l'|] eqn:Hdrop; [|by exists []].
    destruct (Hcut _ _ Hdrop) as [c1 ->]. destruct (IH l') as [c2 Hc2].
    exists (c1 ++ c2). by rewrite <- app_assoc, <- Hc2.
Qed.

Lemma dropWsFront_prefix p q :
  JsString.dropWsFront (p ++ q) = None → JsString.dropWsFront p = None.
Proof.
  destruct p as [|a [|b [|c p]]]; [done|..]; simpl.
  - destruct (JsString.ws1 a); [done|]. done.
  - destruct (JsString.ws1 a); [done|]. destruct (JsString.ws2 a b); [done|]. done.
  - destruct (JsString.ws1 a); [done|]. destruct (JsString.ws2 a b); [done|].
    by destruct (JsString.ws3 a b c).
Qed.

Lemma trimBytes_fixed l :
  let t := JsString.trimEndBytes (JsString.trimStartBytes l) in
  JsString.trimEndBytes (JsString.trimStartBytes t) = t.
Proof.
  intros t.
  assert (JsString.dropWsFront t = None) as Hfront.
  { subst t. unfold JsString.trimEndBytes.
    destruct (strip_cut JsString.dropWsBack
                (length (JsString.trimStartBytes l))
                (reverse (JsString.trimStartBytes l)) dropWsBack_cut)
      as [cut Hcut].
    apply (dropWsFront_prefix _ (reverse cut)).
    rewrite <- reverse_app, <- Hcut, reverse_involutive.
    apply JsStringFacts.trimStartBytes_settles. }
  assert (JsString.trimStartBytes t = t) as ->.
  { by apply strip_fixed. }
  unfold JsString.trimEndBytes at 1. rewrite strip_fixed.
  - apply reverse_involutive.
  - apply JsStringFacts.trimEndBytes_settles.
Qed.

Lemma trim_idempotent s : JsString.trim (JsString.trim s) = JsString.trim s.
Proof.
  unfold JsString.trim. rewrite list_ascii_of_string_of_list_ascii.
  by rewrite trimBytes_fixed.
Qed.

(** X18: trimming is done once and for all: a text that has been trimmed is
    not changed by trimming it again, so it makes no difference to the
    match of a region and a change whether either text was trimmed
    beforehand, and a region whose text is the trimmed original of a
    change is found for it. *)
Theorem match_ignores_earlier_trimming change item :
  JsString.trim (JsString.trim (text item)) = JsString.trim (text item)
  ∧ matchesChange change
      {| text := JsString.trim (text item); boundingBox := boundingBox item |}
    = matchesChange change item
  ∧ matchesChange
      {| id := id change; original := JsString.trim (original change);
         modified := modified change; itemBox := itemBox change |} item
    = matchesChange change item
  ∧ (∀ regions box,
       {| text := JsString.trim (original change); boundingBox := box |} ∈ regions →
       is_Some (List.find (matchesChange change) regions)).
Proof.
  split; [apply trim_idempotent|]. split; [|split].
  - unfold matchesChange. simpl. by rewrite trim_idempotent.
  - unfold matchesChange. simpl. by rewrite trim_idempotent.
  - intros regions box Hin.
    destruct (List.find (matchesChange change) regions) as [r|] eqn:Hfind;
      [by eexists|].
    apply find_none in Hfind. rewrite Forall_forall in Hfind.
    specialize (Hfind _ Hin). unfold matchesChange in Hfind. simpl in Hfind.
    rewrite trim_idempotent in Hfind. by rewrite String.eqb_refl in Hfind.
Qed.

(** ** The edit request and response *)

Lemma bytes_append a b :
  list_ascii_of_string (a +:+ b) = list_ascii_of_string a ++ list_ascii_of_string b.
Proof. induction a as [|c a IH]; [done|]. simpl. by rewrite IH. Qed.

Lemma upToComma_no_comma l :
  ","%char ∉ l → upToComma l = (l, None).
Proof.
  induction l as [|a l IH]; [done|]. intros Hnot.
  apply not_elem_of_cons in Hnot as [Hne Hl]. simpl.
  rewrite (proj2 (Ascii.eqb_neq a ","%char)) by done. by rewrite IH.
Qed.

Lemma upToComma_first_comma l r :
  ","%char ∉ l → upToComma (l ++ ","%char :: r) = (l, Some r).
Proof.
  induction l as [|a l IH]; [done|]. intros Hnot.
  apply not_elem_of_cons in Hnot as [Hne Hl]. simpl.
  rewrite (proj2 (Ascii.eqb_neq a ","%char)) by done. by rewrite IH.
Qed.

Lemma secondSegment_data_url mime payload :
  ","%char ∉ list_ascii_of_string mime →
  ","%char ∉ list_ascii_of_string payload →
  secondSegment ("data:" +:+ mime +:+ ";base64," +:+ payload) = Some payload.
Proof.
  intros Hmime Hpayload. unfold secondSegment.
  rewrite !bytes_append.
  change (list_ascii_of_string ";base64,")
    with (list_ascii_of_string ";base64" ++ [","%char]).
  rewrite !app_assoc, <- (app_assoc _ [","%char]). cbn [app].
  rewrite upToComma_first_comma.
  - rewrite upToComma_no_comma by done. simpl.
    by rewrite string_of_list_ascii_of_string.
  - rewrite !elem_of_app. intros [[Hd|Hm]|Hb]; [|done|].
    + cbn in Hd. repeat (apply elem_of_cons in Hd as [[=]|Hd]). by apply elem_of_nil in Hd.
    + cbn in Hb. repeat (apply elem_of_cons in Hb as [[=]|Hb]). by apply elem_of_nil in Hb.
Qed.

(** X19: the request of the edit adapter starts with the original image and
    ends with the prompt.  A mask given as a base64 data URL is sent
    between them as its bare payload, labelled with the type of the
    original file and not with the type the URL names; with no mask, or
    an empty one, there are just the two parts. *)
Theorem edit_request_carries_mask_payload prompt originalImageFile mime payload :
  ","%char ∉ list_ascii_of_string mime →
  ","%char ∉ list_ascii_of_string payload →
  parts (editRequest prompt originalImageFile
           (Some ("data:" +:+ mime +:+ ";base64," +:+ payload)))
  = [fileToGenerativePart originalImageFile;
     InlinePart {| data := Some payload;
                   mimeType := Some (fileType originalImageFile) |};
     TextPart prompt]
  ∧ parts (editRequest prompt originalImageFile None)
    = [fileToGenerativePart originalImageFile; TextPart prompt]
  ∧ parts (editRequest prompt originalImageFile (Some ""))
    = [fileToGenerativePart originalImageFile; TextPart prompt].
Proof.
  intros Hmime Hpayload. split; [|done].
  unfold editRequest. cbn [parts truthy].
  by rewrite (secondSegment_data_url _ _ Hmime Hpayload).
Qed.

(** X20: the edit adapter reads the first candidate of a response and no
    other.  With no candidate at all, or with a first candidate that has
    no inline data, it fails, whatever the later candidates carry; parts
    of the first candidate without inline data are passed over. *)
Theorem edit_reads_first_candidate_only remote prompt originalImageFile mask :
  let ran := editImage true remote prompt originalImageFile mask in
  let request := editRequest prompt originalImageFile mask in
  (∀ first later,
     remote request = inr {| candidates := Some (first :: later) |} →
     settled ran = readEditResponse {| candidates := Some [first] |})
  ∧ (∀ first later,
       remote request = inr {| candidates := Some (first :: later) |} →
       Forall (λ p, inlineData p = None)
         (responseParts {| candidates := Some [first] |}) →
       ∃ message, settled ran = inl (ThrownError message))
  ∧ (remote request = inr {| candidates := None |}
     ∨ remote request = inr {| candidates := Some [] |} →
     settled ran = inl (ThrownError noImageMessage))
  ∧ (∀ first later skipped part blob rest,
       remote request = inr {| candidates := Some (first :: later) |} →
       content first = Some {| contentParts := Some (skipped ++ part :: rest) |} →
       Forall (λ p, inlineData p = None) skipped →
       inlineData part = Some blob →
       settled ran = inr (dataUrl blob)).
Proof.
  intros ran request. subst ran request.
  split; [|split; [|split]].
  - intros first later Hremote. by rewrite editImage_settled, Hremote.
  - intros first later Hremote Hnone. rewrite editImage_settled, Hremote.
    destruct (readEditResponse_without_image
                {| candidates := Some (first :: later) |}) as (message & -> & _).
    + by apply firstInlineData_none.
    + by eexists.
  - intros [Hremote|Hremote]; by rewrite editImage_settled, Hremote.
  - intros first later skipped part blob rest Hremote Hcontent Hskipped Hpart.
    rewrite editImage_settled, Hremote. unfold readEditResponse, responseParts.
    cbn [firstCandidate candidates]. rewrite Hcontent.
    change (default [] (contentParts {| contentParts := Some (skipped ++ part :: rest) |}))
      with (skipped ++ part :: rest).
    by rewrite (firstInlineData_first _ _ _ _ Hskipped Hpart).
Qed.

(** ** The adapters and the API key *)

(** X21: without an API key none of the three adapters sends a request or
    logs anything, and each fails with the same error; with a key each
    sends exactly one request, whatever the service answers. *)
Theorem adapters_need_api_key JSON_parse :
  (∀ remote imageFile,
     let ran := extractTextWithBoundingBoxes JSON_parse false remote imageFile in
     sent ran = [] ∧ logged ran = []
     ∧ settled ran = inl (ThrownError "API_KEY is not available."))
  ∧ (∀ remote prompt originalImageFile mask,
       let ran := editImage false remote prompt originalImageFile mask in
       sent ran = [] ∧ logged ran = []
       ∧ settled ran = inl (ThrownError "API_KEY is not available."))
  ∧ (∀ remote undefinedRead prompt aspectRatio,
       generateImage false remote undefinedRead prompt aspectRatio
       = ([], inl (ThrownError "API_KEY is not available.")))
  ∧ (∀ remote imageFile,
       sent (extractTextWithBoundingBoxes JSON_parse true remote imageFile)
       = [ocrRequest imageFile])
  ∧ (∀ remote prompt originalImageFile mask,
       sent (editImage true remote prompt originalImageFile mask)
       = [editRequest prompt originalImageFile mask]).
Proof.
  split; [done|]. split; [done|]. split; [done|]. split.
  - intros remote imageFile. unfold extractTextWithBoundingBoxes.
    destruct (remote _) as [err|responseText]; [done|].
    by destruct (parseOcrText JSON_parse responseText).
  - intros remote prompt originalImageFile mask. unfold editImage.
    by destruct (remote _).
Qed.

(** X22: the extraction adapter parses the trimmed text of the response, so
    white space around the text makes no difference to what it returns;
    it logs the raw text exactly when it fails on a response, and then
    with the one message of a malformed response. *)
Theorem extract_ignores_padding JSON_parse remote padded imageFile t :
  remote (ocrRequest imageFile) = inr (Some (JsString.trim t)) →
  padded (ocrRequest imageFile) = inr (Some t) →
  let ran := extractTextWithBoundingBoxes JSON_parse true remote imageFile in
  let ran' := extractTextWithBoundingBoxes JSON_parse true padded imageFile in
  settled ran' = settled ran
  ∧ (logged ran' = [] ∨ logged ran' = [Some t])
  ∧ (logged ran' = [Some t]
     ↔ settled ran' = inl (ThrownError malformedResponseMessage))
  ∧ (logged ran' = [] ↔ ∃ value, settled ran' = inr value).
Proof.
  intros Hremote Hpadded ran ran'. subst ran ran'.
  unfold extractTextWithBoundingBoxes. rewrite Hremote, Hpadded.
  unfold parseOcrText. rewrite trim_idempotent.
  destruct (JSON_parse (JsString.trim t)) as [value|]; cbn.
  - split; [done|]. split; [by left|]. split; [done|]. split; [by eexists|done].
  - split; [done|]. split; [by right|]. split; [done|]. split; [done|]. by intros [? ?].
Qed.

(** ** Instances on the sample data *)

Lemma sampleState_reachableUI : reachableUI sampleState.
Proof.
  unfold sampleState.
  apply reachableUI_handle; [|simpl; lia].
  apply reachableUI_handle; [|simpl; lia].
  apply reachableUI_handle; [|simpl; lia].
  apply reachableUI_handle.
  2:{ split; [done|]. eexists. split; [by left|done]. }
  apply reachableUI_handle; [|done].
  apply reachableUI_handle; [|done].
  apply reachableUI_initial.
Qed.

Lemma generator_blank_prompt_witness :
  Forall (λ a, JsString.ws1 a = true)
    (list_ascii_of_string (Generator.prompt blankGenerator))
  ∧ Generator.handleSubmit (inr []) blankGenerator
    = [Generator.SetError (Some "Please enter a prompt.")].
Proof.
  assert (Forall (λ a, JsString.ws1 a = true)
            (list_ascii_of_string (Generator.prompt blankGenerator))) as Hblank.
  { by repeat constructor. }
  split; [exact Hblank|].
  apply (generator_blank_prompt (inr []) blankGenerator Hblank).
Defined.

Lemma generator_submission_witness :
  JsString.trim (Generator.prompt catGenerator) ≠ ""
  ∧ Generator.error
      (Generator.run (Generator.handleSubmit (inl ThrownOther) catGenerator)
         catGenerator)
    = Some "An unknown error occurred."
  ∧ Generator.generatedImages
      (Generator.run (Generator.handleSubmit (inl ThrownOther) catGenerator)
         catGenerator)
    = [].
Proof.
  assert (JsString.trim (Generator.prompt catGenerator) ≠ "") as Hprompt.
  { by vm_compute. }
  split; [exact Hprompt|].
  pose proof (generator_submission (inl ThrownOther) catGenerator Hprompt) as H.
  cbv zeta in H. destruct H as (_ & _ & _ & _ & Hfailure).
  destruct (Hfailure ThrownOther eq_refl) as [Himages Herror].
  split; [exact Herror|exact Himages].
Defined.

Lemma generator_end_to_end_witness :
  JsString.trim (Generator.prompt catGenerator) ≠ ""
  ∧ Generator.generatedImages
      (Generator.run
         (Generator.handleSubmit
            (generateImage true (λ _, inr catResponse) (λ _, "")
               (Generator.prompt catGenerator)
               (Generator.ratioText (Generator.aspectRatio catGenerator))).2
            catGenerator)
         catGenerator)
    = ["data:image/jpeg;base64,QUFB"; "data:image/jpeg;base64,QkJC"].
Proof.
  assert (JsString.trim (Generator.prompt catGenerator) ≠ "") as Hprompt.
  { by vm_compute. }
  split; [exact Hprompt|].
  pose proof (generator_end_to_end (λ _, inr catResponse) (λ _, "")
                catGenerator Hprompt) as H.
  cbv zeta in H. destruct H as (_ & _ & Hshown).
  destruct (Hshown ["QUFB"; "QkJC"] eq_refl) as (Himages & _).
  exact Himages.
Defined.

Lemma ui_indices_name_images_witness :
  reachableUI sampleState ∧ batchSelection sampleState ≠ [].
Proof.
  split; [apply sampleState_reachableUI|].
  destruct (ui_indices_name_images sampleState sampleState_reachableUI)
    as (_ & _ & _ & Hselected).
  by apply Hselected.
Defined.


Lemma ui_submit_needs_only_changes_witness :
  reachableUI sampleState
  ∧ textItems sampleState ≠ []
  ∧ handleSubmit sampleEnv sampleState ≠ [Alert selectionAlert]
  ∧ handleSubmit sampleEnv sampleState ≠ [Alert noChangesAlert].
Proof.
  assert (textItems sampleState ≠ []) as Hitems by done.
  split; [apply sampleState_reachableUI|]. split; [exact Hitems|].
  destruct (ui_submit_needs_only_changes sampleEnv sampleState
              sampleState_reachableUI Hitems) as (Hselection & Hchanges & _).
  split; [exact Hselection|].
  intros Halert. by apply Hchanges in Halert.
Defined.

Lemma text_change_hits_one_item_witness :
  reachable sampleState
  ∧ map original (textItems (handleTextChange 1 "60% OFF" sampleState))
    = map original (textItems sampleState)
  ∧ textItems (handleTextChange 7 "60% OFF" sampleState) = textItems sampleState.
Proof.
  split; [apply sampleState_reachable|].
  pose proof (text_change_hits_one_item 1 "60% OFF" sampleState
                sampleState_reachable) as H.
  cbv zeta in H. destruct H as (_ & _ & Horiginal & _).
  split; [exact Horiginal|].
  pose proof (text_change_hits_one_item 7 "60% OFF" sampleState
                sampleState_reachable) as H.
  cbv zeta in H. destruct H as (_ & _ & _ & _ & _ & _ & Hbeyond & _).
  apply Hbeyond. simpl. lia.
Defined.

Lemma text_change_activity_witness :
  reachable sampleState
  ∧ textItems sampleState !! 0%nat = Some saleEdit
  ∧ ∀ x, x ∈ activeChanges (textItems (handleTextChange 0 "SALE" sampleState)) →
         id x ≠ 0%nat.
Proof.
  split; [apply sampleState_reachable|]. split; [done|].
  pose proof (text_change_activity 0 saleEdit "SALE" sampleState
                sampleState_reachable eq_refl) as H.
  cbv zeta in H. destruct H as (_ & _ & _ & Hback).
  exact Hback.
Defined.


Lemma batch_run_frame_witness :
  (masterIndex sampleState ≠ None
   ∧ batchSelection sampleState ≠ []
   ∧ activeChanges (textItems sampleState) ≠ [])
  ∧ isBatchProcessing (run (handleSubmit sampleEnv sampleState) sampleState) = false
  ∧ textItems (run (handleSubmit sampleEnv sampleState) sampleState)
    = textItems sampleState.
Proof.
  destruct sampleState_accepted as (Hmaster & Hselection & _ & Hchanges).
  split; [by repeat split|].
  pose proof (batch_run_frame sampleEnv sampleState Hmaster Hselection Hchanges)
    as H.
  cbv zeta in H. destruct H as (_ & Hflag & _ & Hitems & _).
  split; [exact Hflag|]. exact (f_equal (λ t, t.1.1) Hitems).
Defined.

Lemma toggle_twice_witness :
  masterIndex sampleState ≠ Some 2%nat
  ∧ ∀ j, j ∈ batchSelection
             (handleToggleBatchSelection 2
                (handleToggleBatchSelection 2 sampleState))
         ↔ j ∈ batchSelection sampleState.
Proof.
  assert (masterIndex sampleState ≠ Some 2%nat) as Hmaster by done.
  split; [exact Hmaster|].
  pose proof (toggle_twice 2 sampleState Hmaster) as H.
  cbv zeta in H. destruct H as (_ & _ & Htwice & _).
  exact Htwice.
Defined.

Lemma old_master_can_be_deselected_witness :
  masterIndex sampleState = Some 0%nat
  ∧ 0%nat ∈ batchSelection sampleState
  ∧ (0%nat ∉ batchSelection
               (handleToggleBatchSelection 0 (handleSelectMaster 1 sampleState))).
Proof.
  assert (0%nat ∈ batchSelection sampleState) as Hin by (by left).
  split; [done|]. split; [exact Hin|].
  pose proof (old_master_can_be_deselected 0 1 sampleState eq_refl Hin
                ltac:(done)) as H.
  cbv zeta in H. destruct H as (_ & _ & Hout & _).
  exact Hout.
Defined.

Lemma edit_request_carries_mask_payload_witness :
  (","%char ∉ list_ascii_of_string "image/png")
  ∧ (","%char ∉ list_ascii_of_string "iVBORw0KGgo=")
  ∧ parts (editRequest "Replace the text." sampleFile
             (Some "data:image/png;base64,iVBORw0KGgo="))
    = [fileToGenerativePart sampleFile;
       InlinePart {| data := Some "iVBORw0KGgo=";
                     mimeType := Some (fileType sampleFile) |};
       TextPart "Replace the text."].
Proof.
  assert (","%char ∉ list_ascii_of_string "image/png") as Hmime.
  { apply (bool_decide_unpack _). by vm_compute. }
  assert (","%char ∉ list_ascii_of_string "iVBORw0KGgo=") as Hpayload.
  { apply (bool_decide_unpack _). by vm_compute. }
  split; [exact Hmime|]. split; [exact Hpayload|].
  apply (edit_request_carries_mask_payload "Replace the text." sampleFile
           "image/png" "iVBORw0KGgo=" Hmime Hpayload).
Defined.

Lemma extract_ignores_padding_witness :
  JsString.trim paddedReply = "[]"
  ∧ settled (extractTextWithBoundingBoxes Json.parse true
               (λ _, inr (Some paddedReply)) sampleFile)
    = settled (extractTextWithBoundingBoxes Json.parse true
                 (λ _, inr (Some "[]")) sampleFile).
Proof.
  split; [by vm_compute|].
  pose proof (extract_ignores_padding Json.parse (λ _, inr (Some "[]"))
                (λ _, inr (Some paddedReply)) sampleFile paddedReply
                eq_refl eq_refl) as H.
  cbv zeta in H. destruct H as (Hsame & _).
  exact Hsame.
Defined.
